(** * vidchat-client: the signaling and negotiation logic of the App component

    The repository holds two revisions of one React component:
    - [src/App.tsx] (camera call and chat), and
    - a second revision of the same component with screen sharing and an
      explicit disconnect button, called "the screen-share revision" below.
    The socket listeners, [joinRoom], [initializePeerConnection],
    [createOffer] and [handleOffer] are textually the same in both; the
    revisions differ in [sendMessage] and in the operations only the second
    one has ([startScreenShare], [stopScreenShare], [disconnect]).  The
    model follows the screen-share revision; module [AppTsx] gives what
    [src/App.tsx] has of its own: its [sendMessage], and its events, which
    lack the three buttons of the other revision and have the join button
    disabled while loading.  Line numbers are given as
    "[src/App.tsx] / screen-share revision".

    The component is embedded as a state record (its [useState] cells and
    [useRef] cells) and a state-and-exception monad over it.  Everything the
    component does to the outside (socket emits, calls on the
    RTCPeerConnection, [track.stop()], [alert], console output) is appended to
    a trace, in program order, together with the answer of the browser where
    there is one.  The browser's WebRTC engine is not part of the repository:
    it is a parameter ([Engine]) that decides, from the history so far,
    whether a call succeeds and which description it produces.  Nor is the
    socket library: the same parameter says what its [emit] does with a
    reserved event name.

    Scope of the model.
    - It starts once the effect of the component has installed its socket
      listeners and the camera request of [useMedia] has settled, so
      [localStream] is fixed ([Some] stream, or [None] when refused).  A
      render that happens after the socket is created but before the camera
      stream arrives makes the effect run twice, and since its cleanup removes
      no listener a second set of listeners is installed; the development
      covers the runs in which the listeners are installed once.
    - Every handler runs to completion before the next event is handled
      (the serialisation the design asks for); an [await] is a call whose
      rejection ends the handler.
    - Unmounting the component, which closes the connection and the socket,
      ends a run and is not an event of it. *)

From Stdlib Require Import String List Bool Arith Lia.
Import ListNotations.
Open Scope string_scope.
Open Scope list_scope.

(** ** Values exchanged with the browser and the relay *)

(** A MediaStreamTrack, identified by its id; a MediaStream by its
    [getTracks()] list. *)
Definition Track := string.
Definition MediaStream := list Track.

Inductive SdpType := SdpOffer | SdpAnswer.

Record RTCSessionDescriptionInit := mkDesc {
  sd_type : SdpType;
  sd_sdp : string
}.

Definition RTCIceCandidateInit := string.

(** [socket.emit(event, ...)]: what the client puts on the signaling channel. *)
Inductive ClientMsg :=
| join_room (room user : string)
| offer_msg (d : RTCSessionDescriptionInit)
| answer_msg (d : RTCSessionDescriptionInit)
| ice_candidate_msg (c : RTCIceCandidateInit)
| send_message (text : string).

(** A method call on an RTCPeerConnection, with the browser's answer:
    [bool] is "returned / resolved" against "threw / rejected", the two
    [option]s are the description a resolved [createOffer]/[createAnswer]
    produced. *)
Inductive PcCall :=
| New
| AddTrack (t : Track) (ok : bool)
| CreateOffer (r : option RTCSessionDescriptionInit)
| CreateAnswer (r : option RTCSessionDescriptionInit)
| SetLocalDescription (d : RTCSessionDescriptionInit) (ok : bool)
| SetRemoteDescription (d : RTCSessionDescriptionInit) (ok : bool)
| AddIceCandidate (c : RTCIceCandidateInit) (ok : bool)
| Close.

Inductive Effect :=
| Emit (m : ClientMsg)
| Pc (id : nat) (c : PcCall)
| GetDisplayMedia (r : option MediaStream)
| TrackStop (t : Track)
| Alert (text : string)
| ConsoleLog (text : string)
| ConsoleError (text : string)
| EmitReserved (event : string) (returned : bool).

Definition Trace := list Effect.

(** The browser.  Each field answers one call, given everything that
    happened before it and the connection it is made on.  The last field
    belongs to the socket library: [socket.emit] with an event name the
    library reserves for itself ("disconnect" is one) puts nothing on the
    channel; socket.io-client 2.x hands the event to the local listeners of
    the socket, of which the component has none for it, and returns
    ([true]); from 3.x on the call throws ([false]). *)
Record Engine := mkEngine {
  rtc_addTrack : Trace -> nat -> Track -> bool;
  rtc_createOffer : Trace -> nat -> option RTCSessionDescriptionInit;
  rtc_createAnswer : Trace -> nat -> option RTCSessionDescriptionInit;
  rtc_setLocalDescription : Trace -> nat -> RTCSessionDescriptionInit -> bool;
  rtc_setRemoteDescription : Trace -> nat -> RTCSessionDescriptionInit -> bool;
  rtc_addIceCandidate : Trace -> nat -> RTCIceCandidateInit -> bool;
  media_getDisplayMedia : Trace -> option MediaStream;
  reserved_emit_returns : bool
}.

(** ** Component state *)

(** A [useRef<HTMLVideoElement>(null)]: [None] while the element is not
    mounted, [Some src] while it is, [src] being its [srcObject]. *)
Definition VideoRef := option (option MediaStream).

Record State := mkState {
  roomId : string;
  userId : string;
  message : string;
  messages : list string;
  isScreenSharing : bool;
  loading : bool;
  error : string;
  localStream : option MediaStream;
  peerConnectionRef : option nat;
  remoteVideoRef : VideoRef;
  screenVideoRef : VideoRef;
  trace : Trace
}.

Definition setRoomId (v : string) (s : State) : State :=
  mkState v (userId s) (message s) (messages s) (isScreenSharing s) (loading s)
    (error s) (localStream s) (peerConnectionRef s) (remoteVideoRef s)
    (screenVideoRef s) (trace s).

Definition setUserId (v : string) (s : State) : State :=
  mkState (roomId s) v (message s) (messages s) (isScreenSharing s) (loading s)
    (error s) (localStream s) (peerConnectionRef s) (remoteVideoRef s)
    (screenVideoRef s) (trace s).

Definition setMessage (v : string) (s : State) : State :=
  mkState (roomId s) (userId s) v (messages s) (isScreenSharing s) (loading s)
    (error s) (localStream s) (peerConnectionRef s) (remoteVideoRef s)
    (screenVideoRef s) (trace s).

Definition setMessages (f : list string -> list string) (s : State) : State :=
  mkState (roomId s) (userId s) (message s) (f (messages s)) (isScreenSharing s)
    (loading s) (error s) (localStream s) (peerConnectionRef s)
    (remoteVideoRef s) (screenVideoRef s) (trace s).

Definition setIsScreenSharing (v : bool) (s : State) : State :=
  mkState (roomId s) (userId s) (message s) (messages s) v (loading s)
    (error s) (localStream s) (peerConnectionRef s) (remoteVideoRef s)
    (screenVideoRef s) (trace s).

Definition setLoading (v : bool) (s : State) : State :=
  mkState (roomId s) (userId s) (message s) (messages s) (isScreenSharing s) v
    (error s) (localStream s) (peerConnectionRef s) (remoteVideoRef s)
    (screenVideoRef s) (trace s).

Definition setError (v : string) (s : State) : State :=
  mkState (roomId s) (userId s) (message s) (messages s) (isScreenSharing s)
    (loading s) v (localStream s) (peerConnectionRef s) (remoteVideoRef s)
    (screenVideoRef s) (trace s).

Definition setPeerConnectionRef (v : option nat) (s : State) : State :=
  mkState (roomId s) (userId s) (message s) (messages s) (isScreenSharing s)
    (loading s) (error s) (localStream s) v (remoteVideoRef s)
    (screenVideoRef s) (trace s).

Definition setRemoteVideoRef (v : VideoRef) (s : State) : State :=
  mkState (roomId s) (userId s) (message s) (messages s) (isScreenSharing s)
    (loading s) (error s) (localStream s) (peerConnectionRef s) v
    (screenVideoRef s) (trace s).

Definition setScreenVideoRef (v : VideoRef) (s : State) : State :=
  mkState (roomId s) (userId s) (message s) (messages s) (isScreenSharing s)
    (loading s) (error s) (localStream s) (peerConnectionRef s)
    (remoteVideoRef s) v (trace s).

Definition record (e : Effect) (s : State) : State :=
  mkState (roomId s) (userId s) (message s) (messages s) (isScreenSharing s)
    (loading s) (error s) (localStream s) (peerConnectionRef s)
    (remoteVideoRef s) (screenVideoRef s) (trace s ++ [e]).

Definition records (new : list Effect) (s : State) : State :=
  fold_left (fun acc e => record e acc) new s.

(** The component as first rendered with its listeners in place: empty
    inputs, no message, no connection, the two call videos mounted and the
    screen-share video not (it is rendered only while [isScreenSharing]). *)
Definition init (camera : option MediaStream) : State :=
  mkState "" "" "" [] false false "" camera None (Some None) None [].

(** ** The monad of handlers: state, and the exceptions of JavaScript *)

Inductive Exn :=
| TypeError (what : string)
| Rejected (what : string)
| JsError (what : string).

Inductive Res (A : Type) :=
| Ok (a : A)
| Raise (e : Exn).
Arguments Ok {A} a.
Arguments Raise {A} e.

Definition M (A : Type) := State -> Res A * State.

Definition ret {A} (a : A) : M A := fun s => (Ok a, s).

Definition bind {A B} (m : M A) (k : A -> M B) : M B :=
  fun s => match m s with
           | (Ok a, s') => k a s'
           | (Raise e, s') => (Raise e, s')
           end.

Definition throw {A} (e : Exn) : M A := fun s => (Raise e, s).

Definition try_catch (body : M unit) (handler : Exn -> M unit) : M unit :=
  fun s => match body s with
           | (Ok a, s') => (Ok a, s')
           | (Raise e, s') => handler e s'
           end.

Definition gets {A} (f : State -> A) : M A := fun s => (Ok (f s), s).
Definition modify (f : State -> State) : M unit := fun s => (Ok tt, f s).
Definition perform (e : Effect) : M unit := modify (record e).

Notation "x <- c1 ;; c2" := (bind c1 (fun x => c2))
  (at level 61, c1 at next level, right associativity).
Notation "c1 ;; c2" := (bind c1 (fun _ => c2))
  (at level 61, right associativity).

(** [xs.forEach(f)]: stops at the first exception. *)
Fixpoint forEach {A} (xs : list A) (f : A -> M unit) : M unit :=
  match xs with
  | [] => ret tt
  | x :: rest => f x ;; forEach rest f
  end.

(** JavaScript's [!str]: only the empty string is falsy. *)
Definition falsy (v : string) : bool :=
  match v with
  | EmptyString => true
  | String _ _ => false
  end.

(** ** What a trace says about the connections *)

Definition calls_on (id : nat) (tr : Trace) : list PcCall :=
  flat_map (fun e => match e with
                     | Pc i c => if Nat.eqb i id then [c] else []
                     | _ => []
                     end) tr.

Definition emitted (tr : Trace) : list ClientMsg :=
  flat_map (fun e => match e with Emit m => [m] | _ => [] end) tr.

Definition is_offer (m : ClientMsg) : bool :=
  match m with offer_msg _ => true | _ => false end.

Definition is_answer (m : ClientMsg) : bool :=
  match m with answer_msg _ => true | _ => false end.

Definition offers_sent (tr : Trace) : list ClientMsg := filter is_offer (emitted tr).
Definition answers_sent (tr : Trace) : list ClientMsg := filter is_answer (emitted tr).

(** Connections created so far: the next one gets this number. *)
Definition connections (tr : Trace) : nat :=
  length (filter (fun e => match e with Pc _ New => true | _ => false end) tr).

(** Tracks attached to connection [id], in the order they were added. *)
Definition senders (id : nat) (tr : Trace) : list Track :=
  flat_map (fun c => match c with AddTrack t true => [t] | _ => [] end)
           (calls_on id tr).

Definition closed (id : nat) (tr : Trace) : bool :=
  existsb (fun c => match c with Close => true | _ => false end) (calls_on id tr).

(** Candidates handed to [addIceCandidate] on connection [id]. *)
Definition candidates_applied (id : nat) (tr : Trace) : list RTCIceCandidateInit :=
  flat_map (fun c => match c with AddIceCandidate x _ => [x] | _ => [] end)
           (calls_on id tr).

(** Was a remote description handed to connection [id]? *)
Definition remote_description_set (id : nat) (tr : Trace) : bool :=
  existsb (fun c => match c with SetRemoteDescription _ _ => true | _ => false end)
          (calls_on id tr).

Definition stopped (tr : Trace) : list Track :=
  flat_map (fun e => match e with TrackStop t => [t] | _ => [] end) tr.

(** ** The client *)

(** [sendMessage] of the screen-share revision (lines 231-236): the text is
    sent, and shown locally, with the sender's name in front. *)
Definition sendMessage (msg : string) : M unit :=
  if falsy msg then ret tt
  else
    uid <- gets userId ;;
    perform (Emit (send_message (uid ++ ": " ++ msg)%string)) ;;
    modify (setMessages (fun prev => prev ++ [(uid ++ ": " ++ msg)%string])).

(** [stopScreenShare] (screen-share revision, lines 257-264). *)
Definition stopScreenShare : M unit :=
  ref <- gets screenVideoRef ;;
  forEach (match ref with
           | Some (Some stream) => stream
           | _ => []
           end)
          (fun t => perform (TrackStop t)) ;;
  match ref with
  | Some _ => modify (setScreenVideoRef (Some None))
  | None => throw (TypeError "screenVideoRef.current is null")
  end ;;
  modify (setIsScreenSharing false).

(** The listener of "receive-message" (lines 142-144 / 161-163). *)
Definition on_receive_message (msg : string) : M unit :=
  modify (setMessages (fun prev => prev ++ [msg])).

(** [peerConnection.onicecandidate] (lines 175-179 / 194-198). *)
Definition onicecandidate (candidate : option RTCIceCandidateInit) : M unit :=
  match candidate with
  | Some c => perform (Emit (ice_candidate_msg c))
  | None => ret tt
  end.

(** [peerConnection.ontrack] (lines 181-186 / 200-205). *)
Definition ontrack (streams : list MediaStream) : M unit :=
  ref <- gets remoteVideoRef ;;
  match ref with
  | Some _ =>
      modify (setRemoteVideoRef (Some (hd_error streams))) ;;
      modify (setLoading false)
  | None => ret tt
  end.

Section Client.

Variable E : Engine.

(** Calls on connection [id].  An awaited call, and the synchronous
    [addTrack], throw when the browser refuses. *)
Definition addTrack (id : nat) (t : Track) : M unit :=
  ok <- gets (fun s => rtc_addTrack E (trace s) id t) ;;
  perform (Pc id (AddTrack t ok)) ;;
  if ok then ret tt else throw (Rejected "addTrack").

Definition await_createOffer (id : nat) : M RTCSessionDescriptionInit :=
  r <- gets (fun s => rtc_createOffer E (trace s) id) ;;
  perform (Pc id (CreateOffer r)) ;;
  match r with
  | Some d => ret d
  | None => throw (Rejected "createOffer")
  end.

Definition await_createAnswer (id : nat) : M RTCSessionDescriptionInit :=
  r <- gets (fun s => rtc_createAnswer E (trace s) id) ;;
  perform (Pc id (CreateAnswer r)) ;;
  match r with
  | Some d => ret d
  | None => throw (Rejected "createAnswer")
  end.

Definition await_setLocalDescription (id : nat) (d : RTCSessionDescriptionInit)
  : M unit :=
  ok <- gets (fun s => rtc_setLocalDescription E (trace s) id d) ;;
  perform (Pc id (SetLocalDescription d ok)) ;;
  if ok then ret tt else throw (Rejected "setLocalDescription").

Definition await_setRemoteDescription (id : nat) (d : RTCSessionDescriptionInit)
  : M unit :=
  ok <- gets (fun s => rtc_setRemoteDescription E (trace s) id d) ;;
  perform (Pc id (SetRemoteDescription d ok)) ;;
  if ok then ret tt else throw (Rejected "setRemoteDescription").

(** The same call when its promise is dropped: nothing is thrown. *)
Definition setRemoteDescription (id : nat) (d : RTCSessionDescriptionInit)
  : M unit :=
  ok <- gets (fun s => rtc_setRemoteDescription E (trace s) id d) ;;
  perform (Pc id (SetRemoteDescription d ok)).

Definition addIceCandidate (id : nat) (c : RTCIceCandidateInit) : M unit :=
  ok <- gets (fun s => rtc_addIceCandidate E (trace s) id c) ;;
  perform (Pc id (AddIceCandidate c ok)).

Definition await_getDisplayMedia : M MediaStream :=
  r <- gets (fun s => media_getDisplayMedia E (trace s)) ;;
  perform (GetDisplayMedia r) ;;
  match r with
  | Some stream => ret stream
  | None => throw (Rejected "getDisplayMedia")
  end.

(** The arrow function both [forEach] loops run:
    [(track) => peerConnectionRef.current?.addTrack(track, stream)]. *)
Definition attach (t : Track) : M unit :=
  pc <- gets peerConnectionRef ;;
  match pc with
  | Some id => addTrack id t
  | None => ret tt
  end.

(** [initializePeerConnection] (lines 170-191 / 189-210).  The two handlers
    it installs are [onicecandidate] and [ontrack] above. *)
Definition initializePeerConnection : M unit :=
  id <- gets (fun s => connections (trace s)) ;;
  perform (Pc id New) ;;
  modify (setPeerConnectionRef (Some id)) ;;
  stream <- gets localStream ;;
  match stream with
  | Some tracks => forEach tracks attach
  | None => ret tt
  end.

(** [joinRoom] (lines 151-168 / 170-187). *)
Definition joinRoom : M unit :=
  rid <- gets roomId ;;
  uid <- gets userId ;;
  if falsy rid || falsy uid then
    perform (Alert "Please enter a room ID and your name.")
  else
    modify (setLoading true) ;;
    modify (setError "") ;;
    perform (Emit (join_room rid uid)) ;;
    stream <- gets localStream ;;
    match stream with
    | Some _ => initializePeerConnection
    | None =>
        modify (setError
          "Failed to access media devices. Please ensure permissions are granted.") ;;
        modify (setLoading false)
    end.

(** [createOffer] (lines 193-199 / 212-218). *)
Definition createOffer : M unit :=
  pc <- gets peerConnectionRef ;;
  match pc with
  | Some id =>
      offer <- await_createOffer id ;;
      await_setLocalDescription id offer ;;
      perform (Emit (offer_msg offer))
  | None => ret tt
  end.

(** [handleOffer] (lines 201-210 / 220-229), the listener of "offer". *)
Definition handleOffer (offer : RTCSessionDescriptionInit) : M unit :=
  pc <- gets peerConnectionRef ;;
  match pc with
  | Some id =>
      await_setRemoteDescription id offer ;;
      answer <- await_createAnswer id ;;
      await_setLocalDescription id answer ;;
      perform (Emit (answer_msg answer))
  | None => ret tt
  end.

(** A call of an async function whose promise nobody holds: what it did
    stays done, its rejection goes nowhere. *)
Definition detached (m : M unit) : M unit :=
  try_catch m (fun _ => ret tt).

(** The listener of "user-connected" (lines 124-129 / 143-148). *)
Definition on_user_connected (uid : string) : M unit :=
  perform (ConsoleLog ("User connected: " ++ uid)%string) ;;
  stream <- gets localStream ;;
  match stream with
  | Some _ => detached createOffer
  | None => ret tt
  end.

(** The listener of "answer" (lines 132-136 / 151-155). *)
Definition on_answer (answer : RTCSessionDescriptionInit) : M unit :=
  pc <- gets peerConnectionRef ;;
  match pc with
  | Some id => setRemoteDescription id answer
  | None => ret tt
  end.

(** The listener of "ice-candidate" (lines 137-141 / 156-160). *)
Definition on_ice_candidate (candidate : RTCIceCandidateInit) : M unit :=
  pc <- gets peerConnectionRef ;;
  match pc with
  | Some id => addIceCandidate id candidate
  | None => ret tt
  end.

(** [startScreenShare] (screen-share revision, lines 238-255). *)
Definition startScreenShare : M unit :=
  try_catch
    (screenStream <- await_getDisplayMedia ;;
     pc <- gets peerConnectionRef ;;
     match pc with
     | Some _ =>
         forEach screenStream attach ;;
         ref <- gets screenVideoRef ;;
         match ref with
         | Some _ => modify (setScreenVideoRef (Some (Some screenStream)))
         | None => throw (TypeError "screenVideoRef.current is null")
         end ;;
         modify (setIsScreenSharing true)
     | None => ret tt
     end)
    (fun _ =>
       perform (ConsoleError "Error sharing screen:") ;;
       modify (setError "Failed to share the screen. Please try again.")).

(** [socket.emit(event)] with a reserved event name: nothing goes on the
    channel, and the call returns or throws as the socket library has it. *)
Definition emit_reserved (event : string) : M unit :=
  perform (EmitReserved event (reserved_emit_returns E)) ;;
  if reserved_emit_returns E then ret tt
  else throw (JsError "reserved event name").

(** [disconnect] (screen-share revision, lines 266-269). *)
Definition disconnect : M unit :=
  pc <- gets peerConnectionRef ;;
  match pc with
  | Some id => perform (Pc id Close)
  | None => ret tt
  end ;;
  emit_reserved "disconnect".

(** ** Events and runs *)

Inductive Event :=
| TypeRoomId (v : string)
| TypeUserId (v : string)
| TypeMessage (v : string)
| ClickJoin
| ClickSend
| ClickStartScreenShare
| ClickStopScreenShare
| ClickDisconnect
| UserConnected (uid : string)
| OfferIn (d : RTCSessionDescriptionInit)
| AnswerIn (d : RTCSessionDescriptionInit)
| IceCandidateIn (c : RTCIceCandidateInit)
| ReceiveMessage (msg : string)
| IceCandidateFound (c : option RTCIceCandidateInit)
| TrackReceived (streams : list MediaStream).

(** Only while a connection exists can it raise its own events. *)
Definition when_connection (m : M unit) : M unit :=
  pc <- gets peerConnectionRef ;;
  match pc with
  | Some _ => m
  | None => ret tt
  end.

(** What each event runs.  The "Stop Screen Share" button is part of the
    screen-share view and exists only while [isScreenSharing]; the send
    button runs [sendMessage(message)] and then clears the input
    (lines 71-74). *)
Definition handle (ev : Event) : M unit :=
  match ev with
  | TypeRoomId v => modify (setRoomId v)
  | TypeUserId v => modify (setUserId v)
  | TypeMessage v => modify (setMessage v)
  | ClickJoin => joinRoom
  | ClickSend => msg <- gets message ;; sendMessage msg ;; modify (setMessage "")
  | ClickStartScreenShare => startScreenShare
  | ClickStopScreenShare =>
      sharing <- gets isScreenSharing ;;
      if sharing then stopScreenShare else ret tt
  | ClickDisconnect => disconnect
  | UserConnected uid => on_user_connected uid
  | OfferIn d => handleOffer d
  | AnswerIn d => on_answer d
  | IceCandidateIn c => on_ice_candidate c
  | ReceiveMessage msg => on_receive_message msg
  | IceCandidateFound c => when_connection (onicecandidate c)
  | TrackReceived streams => when_connection (ontrack streams)
  end.

(** After a handler React renders again: the call videos are on screen
    while [isScreenSharing] is false, the screen-share video while it is
    true (lines 278-290); an element that leaves the screen empties its ref. *)
Definition mounted (show : bool) (ref : VideoRef) : VideoRef :=
  if show then
    match ref with
    | Some src => Some src
    | None => Some None
    end
  else None.

Definition render (s : State) : State :=
  setScreenVideoRef (mounted (isScreenSharing s) (screenVideoRef s))
    (setRemoteVideoRef (mounted (negb (isScreenSharing s)) (remoteVideoRef s)) s).

(** One event: the handler, whatever it threw, then the render. *)
Definition step (s : State) (ev : Event) : State :=
  render (snd (handle ev s)).

Definition run (s : State) (evs : list Event) : State :=
  fold_left step evs s.

End Client.

(** ** A browser to run the client against *)

(** An engine that accepts every call on a connection that is not closed
    and describes a session by the tracks attached to the connection. *)
Definition describe (ty : SdpType) (tr : Trace) (id : nat)
  : option RTCSessionDescriptionInit :=
  if closed id tr then None
  else Some (mkDesc ty (String.concat "," (senders id tr))).

Definition browser : Engine :=
  mkEngine
    (fun tr id _ => negb (closed id tr))
    (describe SdpOffer)
    (describe SdpAnswer)
    (fun tr id _ => negb (closed id tr))
    (fun tr id _ => negb (closed id tr))
    (fun tr id _ => negb (closed id tr))
    (fun _ => Some ["screen"])
    false.

(** A browser that accepts every call, whatever the state of the
    connection. *)
Definition willing : Engine :=
  mkEngine
    (fun _ _ _ => true)
    (fun tr id => Some (mkDesc SdpOffer (String.concat "," (senders id tr))))
    (fun tr id => Some (mkDesc SdpAnswer (String.concat "," (senders id tr))))
    (fun _ _ _ => true) (fun _ _ _ => true) (fun _ _ _ => true)
    (fun _ => Some ["screen"])
    true.

(** A browser that refuses everything. *)
Definition refusing : Engine :=
  mkEngine (fun _ _ _ => false) (fun _ _ => None) (fun _ _ => None)
    (fun _ _ _ => false) (fun _ _ _ => false) (fun _ _ _ => false)
    (fun _ => None)
    false.

(** Alice's client once she has joined room "r1" with camera and
    microphone; the same client after bob has joined and she has sent her
    offer; and after bob has answered it. *)
Definition joined : State :=
  run browser (init (Some ["cam"; "mic"]))
    [TypeRoomId "r1"; TypeUserId "alice"; ClickJoin].

Definition offering : State :=
  step browser joined (UserConnected "bob").

Definition connected : State :=
  run browser joined
    [UserConnected "bob"; AnswerIn (mkDesc SdpAnswer "cam,mic")].


(** ** The relay and a two-party call *)

(** Modelled from the spec: the signaling relay is a separate server, not
    part of this repository.  By the wire contract of the specification
    (section 6) and its delivery rule (section 4.1) it hands what one member
    of a room emits to the other member, in order: "join-room" arrives as
    "user-connected" with the name of the one who joined; "offer", "answer"
    and "ice-candidate" arrive unchanged; "send-message" arrives as
    "receive-message" with the same text. *)
Definition relay (m : ClientMsg) : list Event :=
  match m with
  | join_room _ user => [UserConnected user]
  | offer_msg d => [OfferIn d]
  | answer_msg d => [AnswerIn d]
  | ice_candidate_msg c => [IceCandidateIn c]
  | send_message text => [ReceiveMessage text]
  end.

(** What a client emitted between two of its states. *)
Definition outbox (before after : State) : list ClientMsg :=
  skipn (length (emitted (trace before))) (emitted (trace after)).

(** ** [src/App.tsx] *)

Module AppTsx.

(** [sendMessage] of [src/App.tsx] (lines 212-217): the bare text is sent,
    and shown locally as "Me: ...". *)
Definition sendMessage (msg : string) : M unit :=
  if falsy msg then ret tt
  else
    perform (Emit (send_message msg)) ;;
    modify (setMessages (fun prev => prev ++ [("Me: " ++ msg)%string])).

(** What each event runs in [src/App.tsx].  The listeners and [joinRoom]
    are those of the other revision; the join button is disabled while
    [loading] (line 240); the send button runs this revision's
    [sendMessage]; there is no button for screen sharing or disconnecting,
    so these events do nothing. *)
Definition handle (E : Engine) (ev : Event) : M unit :=
  match ev with
  | TypeRoomId v => modify (setRoomId v)
  | TypeUserId v => modify (setUserId v)
  | TypeMessage v => modify (setMessage v)
  | ClickJoin =>
      busy <- gets loading ;;
      if busy then ret tt else joinRoom E
  | ClickSend => msg <- gets message ;; sendMessage msg ;; modify (setMessage "")
  | ClickStartScreenShare | ClickStopScreenShare | ClickDisconnect => ret tt
  | UserConnected uid => on_user_connected E uid
  | OfferIn d => handleOffer E d
  | AnswerIn d => on_answer E d
  | IceCandidateIn c => on_ice_candidate E c
  | ReceiveMessage msg => on_receive_message msg
  | IceCandidateFound c => when_connection (onicecandidate c)
  | TrackReceived streams => when_connection (ontrack streams)
  end.

(** Both videos are always on screen (lines 249-250): a render changes no
    ref. *)
Definition step (E : Engine) (s : State) (ev : Event) : State :=
  snd (handle E ev s).

Definition run (E : Engine) (s : State) (evs : list Event) : State :=
  fold_left (step E) evs s.

Definition deliver (E : Engine) (before after : State) (receiver : State) : State :=
  run E receiver (flat_map relay (outbox before after)).

(** The end-to-end scenario, as in [scenario] below, with two clients of
    [src/App.tsx]. *)
Definition scenario (EA EB : Engine) (camA camB : option MediaStream)
  : State * State :=
  let a0 := init camA in
  let b0 := init camB in
  let a1 := run EA a0 [TypeRoomId "r1"; TypeUserId "alice"; ClickJoin] in
  let b1 := run EB b0 [TypeRoomId "r1"; TypeUserId "bob"; ClickJoin] in
  let a2 := deliver EA b0 b1 a1 in
  let b2 := deliver EB a1 a2 b1 in
  let a3 := deliver EA b1 b2 a2 in
  let a4 := run EA a3 [TypeMessage "hi"; ClickSend] in
  let b3 := deliver EB a3 a4 b2 in
  (a4, b3).

End AppTsx.

(** The relay hands the sender's new messages to the receiver. *)
Definition deliver (E : Engine) (before after : State) (receiver : State) : State :=
  run E receiver (flat_map relay (outbox before after)).

(** The end-to-end scenario: alice joins "r1", bob joins after her; alice
    hears of bob and offers, bob answers, alice gets the answer; alice then
    sends the chat message "hi".  The result is the pair of final states
    (alice, bob). *)
Definition scenario (EA EB : Engine) (camA camB : option MediaStream)
  : State * State :=
  let a0 := init camA in
  let b0 := init camB in
  let a1 := run EA a0 [TypeRoomId "r1"; TypeUserId "alice"; ClickJoin] in
  let b1 := run EB b0 [TypeRoomId "r1"; TypeUserId "bob"; ClickJoin] in
  let a2 := deliver EA b0 b1 a1 in
  let b2 := deliver EB a1 a2 b1 in
  let a3 := deliver EA b1 b2 a2 in
  let a4 := run EA a3 [TypeMessage "hi"; ClickSend] in
  let b3 := deliver EB a3 a4 b2 in
  (a4, b3).

(** ** Vocabulary of the properties *)

(** [appends P m]: from every state, [m] only appends to the trace, and
    every effect it appends satisfies [P]. *)
Definition appends {A} (P : Effect -> bool) (m : M A) : Prop :=
  forall s, exists new,
    trace (snd (m s)) = trace s ++ new /\ forallb P new = true.

Definition keeps_trace (f : State -> State) : Prop :=
  forall s, trace (f s) = trace s.

(** [preserves f m]: [m] leaves the observation [f] of the state as it was. *)
Definition preserves {A B} (f : State -> B) (m : M A) : Prop :=
  forall s, f (snd (m s)) = f s.

Definition not_offer (e : Effect) : bool :=
  match e with
  | Emit (offer_msg _) => false
  | _ => true
  end.

Definition not_chat (e : Effect) : bool :=
  match e with
  | Emit (send_message _) => false
  | _ => true
  end.

(** Neither a message on the channel nor a [createOffer]. *)
Definition silent (e : Effect) : bool :=
  match e with
  | Emit _ => false
  | Pc _ (CreateOffer _) => false
  | _ => true
  end.

Definition is_user_connected (ev : Event) : bool :=
  match ev with
  | UserConnected _ => true
  | _ => false
  end.

Definition is_answer_or_disconnect (ev : Event) : bool :=
  match ev with
  | AnswerIn _ | ClickDisconnect => true
  | _ => false
  end.

(** Events that touch the chat: the send button and an inbound message. *)
Definition is_chat (ev : Event) : bool :=
  match ev with
  | ClickSend | ReceiveMessage _ => true
  | _ => false
  end.

Definition is_screen_share (ev : Event) : bool :=
  match ev with
  | ClickStartScreenShare | ClickStopScreenShare => true
  | _ => false
  end.

Definition is_typing (ev : Event) : bool :=
  match ev with
  | TypeRoomId _ | TypeUserId _ | TypeMessage _ => true
  | _ => false
  end.



(** The calls made on a connection before, and after, the first remote
    description it was given. *)
Fixpoint before_remote_description (calls : list PcCall) : list PcCall :=
  match calls with
  | [] => []
  | SetRemoteDescription _ _ :: _ => []
  | c :: rest => c :: before_remote_description rest
  end.

Fixpoint after_remote_description (calls : list PcCall) : list PcCall :=
  match calls with
  | [] => []
  | SetRemoteDescription _ _ :: rest => rest
  | _ :: rest => after_remote_description rest
  end.

Definition candidate_of (c : PcCall) : option RTCIceCandidateInit :=
  match c with
  | AddIceCandidate x _ => Some x
  | _ => None
  end.

(** ** The statements that the code does not meet, as they were made *)

(** Candidates [cs], received on connection [id] before the answer [d],
    are held back until the remote description is set and applied right
    after it, in the order received. *)
Definition buffers_candidates (E : Engine) (s : State) (id : nat)
  (cs : list RTCIceCandidateInit) (d : RTCSessionDescriptionInit) : Prop :=
  let calls :=
    calls_on id (trace (run E s (map IceCandidateIn cs ++ [AnswerIn d]))) in
  let fresh := skipn (length (calls_on id (trace s))) calls in
  flat_map (fun c => match candidate_of c with Some x => [x] | None => [] end)
           (before_remote_description fresh) = []
  /\ map candidate_of (firstn (length cs) (after_remote_description fresh))
     = map Some cs.



(** In the end-to-end scenario bob's message list ends as ["alice: hi"];
    [final] is the pair of final states (alice, bob). *)
Definition shows_sender_name (final : State * State) : Prop :=
  messages (snd final) = ["alice: hi"].

(** Over events with no answer and no disconnect among them, at most one
    offer is sent. *)
Definition one_offer_outstanding (E : Engine) (s : State) (evs : list Event)
  : Prop :=
  forallb (fun ev => negb (is_answer_or_disconnect ev)) evs = true ->
  length (filter is_offer (outbox s (run E s evs))) <= 1.


(** ** Vocabulary of the further properties *)

Definition is_offer_in (ev : Event) : bool :=
  match ev with
  | OfferIn _ => true
  | _ => false
  end.

Definition is_join (ev : Event) : bool :=
  match ev with
  | ClickJoin => true
  | _ => false
  end.

Definition is_track_received (ev : Event) : bool :=
  match ev with
  | TrackReceived _ => true
  | _ => false
  end.

Definition not_answer (e : Effect) : bool :=
  match e with
  | Emit (answer_msg _) => false
  | _ => true
  end.

(** Not the creation of a connection. *)
Definition not_new (e : Effect) : bool :=
  match e with
  | Pc _ New => false
  | _ => true
  end.

(** Not a call on a peer connection. *)
Definition not_pc (e : Effect) : bool :=
  match e with
  | Pc _ _ => false
  | _ => true
  end.

(** Events whose handler never touches a peer connection. *)
Definition is_local (ev : Event) : bool :=
  match ev with
  | TypeRoomId _ | TypeUserId _ | TypeMessage _ | ClickSend
  | ClickStopScreenShare | ReceiveMessage _ | IceCandidateFound _
  | TrackReceived _ => true
  | _ => false
  end.

(** Neither an offer nor an answer put on the channel. *)
Definition not_description (e : Effect) : bool :=
  match e with
  | Emit (offer_msg _) | Emit (answer_msg _) => false
  | _ => true
  end.

Definition sdp_type_eqb (a b : SdpType) : bool :=
  match a, b with
  | SdpOffer, SdpOffer | SdpAnswer, SdpAnswer => true
  | _, _ => false
  end.

Definition desc_eqb (a b : RTCSessionDescriptionInit) : bool :=
  sdp_type_eqb (sd_type a) (sd_type b) && String.eqb (sd_sdp a) (sd_sdp b).

(** [applied_before prev e]: if [e] puts an offer or an answer on the
    channel, then [prev], the effect just before it, is the browser
    accepting that very description as local description. *)
Definition applied_before (prev : option Effect) (e : Effect) : bool :=
  match e with
  | Emit (offer_msg d) | Emit (answer_msg d) =>
      match prev with
      | Some (Pc _ (SetLocalDescription d' true)) => desc_eqb d d'
      | _ => false
      end
  | _ => true
  end.

(** Every offer and answer on the trace comes right after its acceptance
    as local description; [prev] is the effect before the trace. *)
Fixpoint described (prev : option Effect) (tr : Trace) : bool :=
  match tr with
  | [] => true
  | e :: rest => applied_before prev e && described (Some e) rest
  end.

(** What [handleOffer] can do on connection [id]: its completion and the
    effects it leaves, one case per call that the browser can refuse. *)
Inductive offer_handling (id : nat) (offer : RTCSessionDescriptionInit)
  : Res unit -> list Effect -> Prop :=
| offer_refused :
    offer_handling id offer (Raise (Rejected "setRemoteDescription"))
      [Pc id (SetRemoteDescription offer false)]
| answer_not_created :
    offer_handling id offer (Raise (Rejected "createAnswer"))
      [Pc id (SetRemoteDescription offer true); Pc id (CreateAnswer None)]
| answer_refused (answer : RTCSessionDescriptionInit) :
    offer_handling id offer (Raise (Rejected "setLocalDescription"))
      [Pc id (SetRemoteDescription offer true);
       Pc id (CreateAnswer (Some answer));
       Pc id (SetLocalDescription answer false)]
| answer_sent (answer : RTCSessionDescriptionInit) :
    offer_handling id offer (Ok tt)
      [Pc id (SetRemoteDescription offer true);
       Pc id (CreateAnswer (Some answer));
       Pc id (SetLocalDescription answer true);
       Emit (answer_msg answer)].

(** What the detached [createOffer] of the "user-connected" listener can
    leave on connection [id], after the console line. *)
Inductive offer_making (id : nat) : list Effect -> Prop :=
| offer_not_created : offer_making id [Pc id (CreateOffer None)]
| offer_refused_locally (offer : RTCSessionDescriptionInit) :
    offer_making id
      [Pc id (CreateOffer (Some offer)); Pc id (SetLocalDescription offer false)]
| offer_sent (offer : RTCSessionDescriptionInit) :
    offer_making id
      [Pc id (CreateOffer (Some offer)); Pc id (SetLocalDescription offer true);
       Emit (offer_msg offer)].

(** The user types each text into the chat input and presses send. *)
Definition say (texts : list string) : list Event :=
  flat_map (fun text => [TypeMessage text; ClickSend]) texts.

(** The texts [sendMessage] lets through, as the screen-share revision
    words them for sender [uid]. *)
Definition worded (uid : string) (texts : list string) : list string :=
  map (fun text => (uid ++ ": " ++ text)%string)
      (filter (fun text => negb (falsy text)) texts).

(** The candidates among the events of [onicecandidate] ([null] marks the
    end of gathering). *)
Definition gathered (cs : list (option RTCIceCandidateInit))
  : list RTCIceCandidateInit :=
  flat_map (fun c => match c with Some x => [x] | None => [] end) cs.

(** The connection reference is null while no connection was created and
    otherwise holds the one created last. *)
Definition ref_is_newest (s : State) : Prop :=
  peerConnectionRef s
  = match connections (trace s) with
    | 0 => None
    | S n => Some n
    end.
(** * Properties *)

(** ** What a computation adds to the trace *)

Section Appends.

Variable P : Effect -> bool.

Lemma appends_ret {A} (a : A) : appends P (ret a).
Proof. intros s. exists []. split; [ cbn; now rewrite app_nil_r | reflexivity ]. Qed.

Lemma appends_gets {A} (f : State -> A) : appends P (gets f).
Proof. intros s. exists []. split; [ cbn; now rewrite app_nil_r | reflexivity ]. Qed.

Lemma appends_throw {A} (e : Exn) : appends P (@throw A e).
Proof. intros s. exists []. split; [ cbn; now rewrite app_nil_r | reflexivity ]. Qed.

Lemma appends_modify (f : State -> State) :
  keeps_trace f -> appends P (modify f).
Proof.
  intros Hf s. exists []. split; [ cbn; rewrite Hf; now rewrite app_nil_r | reflexivity ].
Qed.

Lemma appends_perform (e : Effect) : P e = true -> appends P (perform e).
Proof.
  intros He s. exists [e]. split; [ reflexivity | cbn; now rewrite He ].
Qed.

Lemma appends_bind {A B} (m : M A) (k : A -> M B) :
  appends P m -> (forall a, appends P (k a)) -> appends P (bind m k).
Proof.
  intros Hm Hk s. unfold bind.
  destruct (Hm s) as [n1 [E1 F1]].
  destruct (m s) as [[a | e] s1]; cbn in E1.
  - destruct (Hk a s1) as [n2 [E2 F2]].
    exists (n1 ++ n2). split.
    + rewrite E2, E1. now rewrite app_assoc.
    + rewrite forallb_app, F1, F2. reflexivity.
  - exists n1. cbn. now split.
Qed.

Lemma appends_try_catch (body : M unit) (handler : Exn -> M unit) :
  appends P body -> (forall e, appends P (handler e)) ->
  appends P (try_catch body handler).
Proof.
  intros Hm Hk s. unfold try_catch.
  destruct (Hm s) as [n1 [E1 F1]].
  destruct (body s) as [[a | e] s1]; cbn in E1.
  - exists n1. cbn. now split.
  - destruct (Hk e s1) as [n2 [E2 F2]].
    exists (n1 ++ n2). split.
    + rewrite E2, E1. now rewrite app_assoc.
    + rewrite forallb_app, F1, F2. reflexivity.
Qed.

Lemma appends_forEach {A} (xs : list A) (f : A -> M unit) :
  (forall x, appends P (f x)) -> appends P (forEach xs f).
Proof.
  intros Hf. induction xs as [| x rest IH]; cbn [forEach].
  - apply appends_ret.
  - apply appends_bind; [ apply Hf | intros _; exact IH ].
Qed.

End Appends.

Lemma keeps_trace_setRoomId v : keeps_trace (setRoomId v).
Proof. intros s; reflexivity. Qed.
Lemma keeps_trace_setUserId v : keeps_trace (setUserId v).
Proof. intros s; reflexivity. Qed.
Lemma keeps_trace_setMessage v : keeps_trace (setMessage v).
Proof. intros s; reflexivity. Qed.
Lemma keeps_trace_setMessages f : keeps_trace (setMessages f).
Proof. intros s; reflexivity. Qed.
Lemma keeps_trace_setIsScreenSharing v : keeps_trace (setIsScreenSharing v).
Proof. intros s; reflexivity. Qed.
Lemma keeps_trace_setLoading v : keeps_trace (setLoading v).
Proof. intros s; reflexivity. Qed.
Lemma keeps_trace_setError v : keeps_trace (setError v).
Proof. intros s; reflexivity. Qed.
Lemma keeps_trace_setPeerConnectionRef v : keeps_trace (setPeerConnectionRef v).
Proof. intros s; reflexivity. Qed.
Lemma keeps_trace_setRemoteVideoRef v : keeps_trace (setRemoteVideoRef v).
Proof. intros s; reflexivity. Qed.
Lemma keeps_trace_setScreenVideoRef v : keeps_trace (setScreenVideoRef v).
Proof. intros s; reflexivity. Qed.

Create HintDb appends.
#[export] Hint Resolve appends_ret appends_gets appends_throw appends_modify
  keeps_trace_setRoomId keeps_trace_setUserId keeps_trace_setMessage
  keeps_trace_setMessages keeps_trace_setIsScreenSharing keeps_trace_setLoading
  keeps_trace_setError keeps_trace_setPeerConnectionRef
  keeps_trace_setRemoteVideoRef keeps_trace_setScreenVideoRef : appends.

(** Splits a handler along its binds and branches; what is left are the
    effects it performs. *)
Ltac appends_step :=
  match goal with
  | |- appends _ (bind _ _) => apply appends_bind; [ | intros ? ]
  | |- appends _ (try_catch _ _) => apply appends_try_catch; [ | intros ? ]
  | |- appends _ (forEach _ _) => apply appends_forEach; intros ?
  | |- appends _ (perform _) => apply appends_perform; reflexivity
  | |- appends _ (match ?x with _ => _ end) => destruct x
  | |- appends _ _ => solve [ auto with appends ]
  end.

Ltac appends_all := repeat appends_step.

Ltac unfold_client :=
  unfold on_user_connected, detached, joinRoom, initializePeerConnection,
    createOffer, handleOffer, sendMessage, startScreenShare, stopScreenShare,
    disconnect, emit_reserved, on_answer, on_ice_candidate,
    on_receive_message,
    when_connection, onicecandidate, ontrack, await_getDisplayMedia,
    await_setRemoteDescription, await_createAnswer, await_createOffer,
    await_setLocalDescription, setRemoteDescription, addIceCandidate, attach,
    addTrack.

(** ** What a computation leaves alone *)

Section Preserves.

Context {B : Type} (f : State -> B).

Lemma preserves_ret {A} (a : A) : preserves f (ret a).
Proof. intros s; reflexivity. Qed.

Lemma preserves_gets {A} (g : State -> A) : preserves f (gets g).
Proof. intros s; reflexivity. Qed.

Lemma preserves_throw {A} (e : Exn) : preserves f (@throw A e).
Proof. intros s; reflexivity. Qed.

Lemma preserves_modify (g : State -> State) :
  (forall s, f (g s) = f s) -> preserves f (modify g).
Proof. intros H s; apply H. Qed.

Lemma preserves_bind {A C} (m : M A) (k : A -> M C) :
  preserves f m -> (forall a, preserves f (k a)) -> preserves f (bind m k).
Proof.
  intros Hm Hk s. unfold bind. specialize (Hm s).
  destruct (m s) as [[a | e] s1]; cbn in Hm |- *.
  - now rewrite Hk.
  - exact Hm.
Qed.

Lemma preserves_try_catch (body : M unit) (handler : Exn -> M unit) :
  preserves f body -> (forall e, preserves f (handler e)) ->
  preserves f (try_catch body handler).
Proof.
  intros Hm Hk s. unfold try_catch. specialize (Hm s).
  destruct (body s) as [[a | e] s1]; cbn in Hm |- *.
  - exact Hm.
  - now rewrite Hk.
Qed.

Lemma preserves_forEach {A} (xs : list A) (g : A -> M unit) :
  (forall x, preserves f (g x)) -> preserves f (forEach xs g).
Proof.
  intros Hg. induction xs as [| x rest IH]; cbn [forEach].
  - apply preserves_ret.
  - apply preserves_bind; [ apply Hg | intros _; exact IH ].
Qed.

End Preserves.

Ltac preserves_step :=
  match goal with
  | |- preserves _ (bind _ _) => apply preserves_bind; [ | intros ? ]
  | |- preserves _ (try_catch _ _) => apply preserves_try_catch; [ | intros ? ]
  | |- preserves _ (forEach _ _) => apply preserves_forEach; intros ?
  | |- preserves _ (perform _) => apply preserves_modify; intros ?; reflexivity
  | |- preserves _ (modify _) => apply preserves_modify; intros ?; reflexivity
  | |- preserves _ (ret _) => apply preserves_ret
  | |- preserves _ (gets _) => apply preserves_gets
  | |- preserves _ (throw _) => apply preserves_throw
  | |- preserves _ (match ?x with _ => _ end) => destruct x
  end.

Ltac preserves_all := repeat preserves_step.

(** ** Reading traces *)

Lemma trace_render s : trace (render s) = trace s.
Proof. reflexivity. Qed.

Lemma trace_records new s : trace (records new s) = trace s ++ new.
Proof.
  revert s. induction new as [| e rest IH]; intros s; cbn.
  - now rewrite app_nil_r.
  - unfold records in IH. rewrite IH. cbn. now rewrite <- app_assoc.
Qed.

Lemma run_cons E s ev evs : run E s (ev :: evs) = run E (step E s ev) evs.
Proof. reflexivity. Qed.

Lemma run_app E s evs1 evs2 :
  run E s (evs1 ++ evs2) = run E (run E s evs1) evs2.
Proof. unfold run. apply fold_left_app. Qed.

Lemma emitted_app tr new : emitted (tr ++ new) = emitted tr ++ emitted new.
Proof. unfold emitted. apply flat_map_app. Qed.

Lemma calls_on_app id tr new :
  calls_on id (tr ++ new) = calls_on id tr ++ calls_on id new.
Proof. unfold calls_on. apply flat_map_app. Qed.

Lemma senders_app id tr new :
  senders id (tr ++ new) = senders id tr ++ senders id new.
Proof. unfold senders. now rewrite calls_on_app, flat_map_app. Qed.

Lemma candidates_applied_app id tr new :
  candidates_applied id (tr ++ new)
  = candidates_applied id tr ++ candidates_applied id new.
Proof. unfold candidates_applied. now rewrite calls_on_app, flat_map_app. Qed.

Lemma stopped_app tr new : stopped (tr ++ new) = stopped tr ++ stopped new.
Proof. unfold stopped. apply flat_map_app. Qed.

Lemma offers_sent_app tr new :
  offers_sent (tr ++ new) = offers_sent tr ++ offers_sent new.
Proof. unfold offers_sent. now rewrite emitted_app, filter_app. Qed.

Lemma skipn_length_app {A} (xs ys : list A) : skipn (length xs) (xs ++ ys) = ys.
Proof. induction xs as [| x rest IH]; [ reflexivity | exact IH ]. Qed.

Lemma outbox_app before after new :
  trace after = trace before ++ new -> outbox before after = emitted new.
Proof.
  intros H. unfold outbox. rewrite H, emitted_app. apply skipn_length_app.
Qed.

Lemma offers_sent_not_offer new :
  forallb not_offer new = true -> offers_sent new = [].
Proof.
  induction new as [| e rest IH]; [ reflexivity | ].
  cbn [forallb]. intros H. apply andb_true_iff in H. destruct H as [He Hrest].
  destruct e as [m | | | | | | |]; try (apply IH; exact Hrest).
  destruct m; try discriminate He; apply IH; exact Hrest.
Qed.

(** ** Offers come from "user-connected" only *)

Lemma handle_appends_no_offer E ev :
  is_user_connected ev = false -> appends not_offer (handle E ev).
Proof.
  destruct ev; cbn [is_user_connected]; intros H; try discriminate H;
    cbn [handle]; unfold_client; appends_all.
Qed.

Lemma step_no_offer E s ev :
  is_user_connected ev = false ->
  offers_sent (trace (step E s ev)) = offers_sent (trace s).
Proof.
  intros H. unfold step. rewrite trace_render.
  destruct (handle_appends_no_offer E ev H s) as [new [Etr Hnew]].
  rewrite Etr, offers_sent_app, (offers_sent_not_offer new Hnew).
  apply app_nil_r.
Qed.

(** C6. A client that receives no "user-connected" sends no offer, whatever
    else happens to it: typing, joining, chatting, screen sharing,
    disconnecting, inbound offers, answers, candidates and chat messages,
    and the events of its own peer connection, against any browser.  The
    offers on its trace after such a run are those that were there before
    (none, when the run starts from the initial state). *)
Theorem no_offer_without_user_connected (E : Engine) (s : State) (evs : list Event) :
  forallb (fun ev => negb (is_user_connected ev)) evs = true ->
  offers_sent (trace (run E s evs)) = offers_sent (trace s).
Proof.
  revert s. induction evs as [| ev rest IH]; intros s H; [ reflexivity | ].
  cbn [forallb] in H. apply andb_true_iff in H. destruct H as [Hev Hrest].
  rewrite run_cons, (IH _ Hrest). apply step_no_offer.
  now apply negb_true_iff in Hev.
Qed.

Lemma no_offer_without_user_connected_witness :
  forallb (fun ev => negb (is_user_connected ev))
    [TypeRoomId "r1"; TypeUserId "bob"; ClickJoin;
     OfferIn (mkDesc SdpOffer "cam,mic"); IceCandidateIn "c1";
     IceCandidateFound (Some "c2"); TypeMessage "hi"; ClickSend;
     ClickStartScreenShare; ClickDisconnect] = true
  /\ offers_sent (trace (run browser (init (Some ["cam"; "mic"]))
       [TypeRoomId "r1"; TypeUserId "bob"; ClickJoin;
        OfferIn (mkDesc SdpOffer "cam,mic"); IceCandidateIn "c1";
        IceCandidateFound (Some "c2"); TypeMessage "hi"; ClickSend;
        ClickStartScreenShare; ClickDisconnect]))
     = offers_sent (trace (init (Some ["cam"; "mic"]))).
Proof.
  split; [ reflexivity | ].
  apply (no_offer_without_user_connected browser (init (Some ["cam"; "mic"]))).
  reflexivity.
Defined.

(** ** Guards *)

Lemma falsy_empty v : falsy v = true <-> v = "".
Proof. destruct v; cbn; split; intros H; try reflexivity; discriminate H. Qed.

(** C8. [joinRoom] with an empty room identifier or an empty user name
    only raises the alert: the state is as before except for that alert on
    the trace, so no "join-room" (nor anything else) is emitted, no peer
    connection is created and the connection reference is untouched. *)
Theorem joinRoom_rejects_missing_identifier (E : Engine) (s : State) :
  roomId s = "" \/ userId s = "" ->
  joinRoom E s = (Ok tt, record (Alert "Please enter a room ID and your name.") s)
  /\ emitted (trace (snd (joinRoom E s))) = emitted (trace s)
  /\ connections (trace (snd (joinRoom E s))) = connections (trace s)
  /\ (forall id, calls_on id (trace (snd (joinRoom E s))) = calls_on id (trace s))
  /\ peerConnectionRef (snd (joinRoom E s)) = peerConnectionRef s.
Proof.
  intros H.
  assert (Hguard : falsy (roomId s) || falsy (userId s) = true).
  { apply orb_true_iff. destruct H as [H | H]; [ left | right ];
      now apply falsy_empty. }
  assert (Hrun : joinRoom E s
                 = (Ok tt, record (Alert "Please enter a room ID and your name.") s)).
  { unfold joinRoom, bind, gets. rewrite Hguard. reflexivity. }
  rewrite Hrun. cbn [snd]. split; [ reflexivity | ].
  repeat split.
  - cbn [record trace]. rewrite emitted_app. apply app_nil_r.
  - unfold connections. cbn [record trace]. rewrite filter_app, length_app.
    cbn. lia.
  - intros id. cbn [record trace]. rewrite calls_on_app. apply app_nil_r.
Qed.

Lemma joinRoom_rejects_missing_identifier_witness :
  (roomId (setUserId "alice" (init (Some ["cam"; "mic"]))) = ""
   \/ userId (setUserId "alice" (init (Some ["cam"; "mic"]))) = "")
  /\ emitted (trace (snd (joinRoom browser
        (setUserId "alice" (init (Some ["cam"; "mic"])))))) = [].
Proof.
  split; [ left; reflexivity | ].
  apply (joinRoom_rejects_missing_identifier browser
           (setUserId "alice" (init (Some ["cam"; "mic"])))).
  left; reflexivity.
Defined.

(** C9. [sendMessage] with the empty string does nothing, in both
    revisions: it returns normally and the state, messages list and trace
    included, is the one it was called in.  Likewise the send button on an
    empty input leaves the messages list and the trace as they were. *)
Theorem sendMessage_empty_is_noop :
  (forall s, sendMessage "" s = (Ok tt, s))
  /\ (forall s, AppTsx.sendMessage "" s = (Ok tt, s))
  /\ (forall E s,
        messages (step E (setMessage "" s) ClickSend) = messages s
        /\ trace (step E (setMessage "" s) ClickSend) = trace s).
Proof.
  split; [ reflexivity | split; [ reflexivity | ] ].
  intros E s. split; reflexivity.
Qed.

(** C10. With no peer connection ([peerConnectionRef] is null) [createOffer]
    and [handleOffer] return normally and leave the state, trace included,
    as it was: no call on a connection, no message emitted. *)
Theorem negotiation_is_noop_without_connection
  (E : Engine) (s : State) (offer : RTCSessionDescriptionInit) :
  peerConnectionRef s = None ->
  createOffer E s = (Ok tt, s) /\ handleOffer E offer s = (Ok tt, s).
Proof.
  intros H. unfold createOffer, handleOffer, bind, gets. rewrite H.
  split; reflexivity.
Qed.

Lemma negotiation_is_noop_without_connection_witness :
  peerConnectionRef (init (Some ["cam"; "mic"])) = None
  /\ createOffer browser (init (Some ["cam"; "mic"]))
     = (Ok tt, init (Some ["cam"; "mic"]))
  /\ handleOffer browser (mkDesc SdpOffer "cam,mic") (init (Some ["cam"; "mic"]))
     = (Ok tt, init (Some ["cam"; "mic"])).
Proof.
  split; [ reflexivity | ].
  apply (negotiation_is_noop_without_connection browser
           (init (Some ["cam"; "mic"])) (mkDesc SdpOffer "cam,mic")).
  reflexivity.
Defined.

(** ** Offer and answer *)

(** C4. An offer received while a peer connection exists (the component
    keeps no phase: the idle and the connected session are both states with
    a connection) is first set as remote description; then an answer is
    created, set as local description and sent, once.  The calls are made in
    that order and nothing else happens; the browser is assumed to accept
    the offer, to produce an answer and to accept it. *)
Theorem handleOffer_answers_once
  (E : Engine) (s : State) (id : nat) (offer answer : RTCSessionDescriptionInit) :
  peerConnectionRef s = Some id ->
  rtc_setRemoteDescription E (trace s) id offer = true ->
  rtc_createAnswer E (trace s ++ [Pc id (SetRemoteDescription offer true)]) id
    = Some answer ->
  rtc_setLocalDescription E
    (trace s ++ [Pc id (SetRemoteDescription offer true);
                 Pc id (CreateAnswer (Some answer))]) id answer = true ->
  handleOffer E offer s
  = (Ok tt, records [Pc id (SetRemoteDescription offer true);
                     Pc id (CreateAnswer (Some answer));
                     Pc id (SetLocalDescription answer true);
                     Emit (answer_msg answer)] s)
  /\ outbox s (step E s (OfferIn offer)) = [answer_msg answer].
Proof.
  intros Hpc Hremote Hanswer Hlocal.
  assert (Hrun : handleOffer E offer s
    = (Ok tt, records [Pc id (SetRemoteDescription offer true);
                       Pc id (CreateAnswer (Some answer));
                       Pc id (SetLocalDescription answer true);
                       Emit (answer_msg answer)] s)).
  { unfold handleOffer, await_setRemoteDescription, await_createAnswer,
      await_setLocalDescription, perform, modify, bind, gets.
    rewrite Hpc, Hremote. cbn. rewrite Hanswer. cbn.
    rewrite <- app_assoc. cbn. rewrite Hlocal. reflexivity. }
  split; [ exact Hrun | ].
  apply outbox_app with
    (new := [Pc id (SetRemoteDescription offer true);
             Pc id (CreateAnswer (Some answer));
             Pc id (SetLocalDescription answer true);
             Emit (answer_msg answer)]).
  unfold step. cbn [handle]. rewrite Hrun, trace_render. cbn [snd].
  apply trace_records.
Qed.

(** The witness takes the idle client, just joined. *)
Lemma handleOffer_answers_once_witness :
  peerConnectionRef joined = Some 0
  /\ rtc_setRemoteDescription browser (trace joined) 0 (mkDesc SdpOffer "cam,mic")
     = true
  /\ rtc_createAnswer browser
       (trace joined
        ++ [Pc 0 (SetRemoteDescription (mkDesc SdpOffer "cam,mic") true)]) 0
     = Some (mkDesc SdpAnswer "cam,mic")
  /\ rtc_setLocalDescription browser
       (trace joined
        ++ [Pc 0 (SetRemoteDescription (mkDesc SdpOffer "cam,mic") true);
            Pc 0 (CreateAnswer (Some (mkDesc SdpAnswer "cam,mic")))]) 0
       (mkDesc SdpAnswer "cam,mic") = true
  /\ outbox joined (step browser joined (OfferIn (mkDesc SdpOffer "cam,mic")))
     = [answer_msg (mkDesc SdpAnswer "cam,mic")].
Proof.
  repeat (split; [ reflexivity | ]).
  apply (handleOffer_answers_once browser joined 0
           (mkDesc SdpOffer "cam,mic") (mkDesc SdpAnswer "cam,mic"));
    reflexivity.
Defined.

(** The connected client answers a further offer in the same way. *)
Lemma connected_client_answers_offer :
  outbox connected
    (step browser connected (OfferIn (mkDesc SdpOffer "cam,mic,screen")))
  = [answer_msg (mkDesc SdpAnswer "cam,mic")].
Proof. reflexivity. Qed.

(** C5, as stated, fails: alice's client, just joined and idle, hears
    "user-connected" twice with no answer in between and sends two offers. *)
Lemma second_user_connected_sends_second_offer :
  ~ one_offer_outstanding browser joined [UserConnected "bob"; UserConnected "bob"].
Proof.
  intros H. specialize (H eq_refl). vm_compute in H. lia.
Qed.

(** C5, amended. In every state with a camera stream and a peer connection,
    each "user-connected" makes the client create one offer, set it as local
    description and send it, once, provided the browser resolves the two
    calls.  The state may already hold an unanswered offer: the component
    keeps no record of one, so a further "user-connected" sends a further
    offer. *)
Theorem user_connected_sends_one_offer
  (E : Engine) (s : State) (id : nat) (tracks : MediaStream) (uid : string)
  (offer : RTCSessionDescriptionInit) :
  localStream s = Some tracks ->
  peerConnectionRef s = Some id ->
  rtc_createOffer E
    (trace s ++ [ConsoleLog ("User connected: " ++ uid)%string]) id = Some offer ->
  rtc_setLocalDescription E
    (trace s ++ [ConsoleLog ("User connected: " ++ uid)%string;
                 Pc id (CreateOffer (Some offer))]) id offer = true ->
  on_user_connected E uid s
  = (Ok tt, records [ConsoleLog ("User connected: " ++ uid)%string;
                     Pc id (CreateOffer (Some offer));
                     Pc id (SetLocalDescription offer true);
                     Emit (offer_msg offer)] s)
  /\ outbox s (step E s (UserConnected uid)) = [offer_msg offer].
Proof.
  intros Hcam Hpc Hoffer Hlocal.
  assert (Hrun : on_user_connected E uid s
    = (Ok tt, records [ConsoleLog ("User connected: " ++ uid)%string;
                       Pc id (CreateOffer (Some offer));
                       Pc id (SetLocalDescription offer true);
                       Emit (offer_msg offer)] s)).
  { unfold on_user_connected, detached, try_catch, createOffer,
      await_createOffer, await_setLocalDescription, perform, modify, bind, gets.
    cbn -[String.append]. rewrite Hcam. cbn -[String.append].
    rewrite Hpc. cbn -[String.append]. rewrite Hoffer. cbn -[String.append].
    rewrite <- app_assoc. cbn -[String.append]. rewrite Hlocal. reflexivity. }
  split; [ exact Hrun | ].
  apply outbox_app with
    (new := [ConsoleLog ("User connected: " ++ uid)%string;
             Pc id (CreateOffer (Some offer));
             Pc id (SetLocalDescription offer true);
             Emit (offer_msg offer)]).
  unfold step. cbn [handle]. rewrite Hrun, trace_render. cbn [snd].
  apply trace_records.
Qed.

(** The witness is taken in a state that already holds an unanswered offer. *)
Lemma user_connected_sends_one_offer_witness :
  let s := step browser joined (UserConnected "bob") in
  offers_sent (trace s) = [offer_msg (mkDesc SdpOffer "cam,mic")]
  /\ localStream s = Some ["cam"; "mic"]
  /\ peerConnectionRef s = Some 0
  /\ rtc_createOffer browser
       (trace s ++ [ConsoleLog "User connected: bob"]) 0
     = Some (mkDesc SdpOffer "cam,mic")
  /\ rtc_setLocalDescription browser
       (trace s ++ [ConsoleLog "User connected: bob";
                    Pc 0 (CreateOffer (Some (mkDesc SdpOffer "cam,mic")))]) 0
       (mkDesc SdpOffer "cam,mic") = true
  /\ outbox s (step browser s (UserConnected "bob"))
     = [offer_msg (mkDesc SdpOffer "cam,mic")].
Proof.
  repeat (split; [ reflexivity | ]).
  apply (user_connected_sends_one_offer browser
           (step browser joined (UserConnected "bob")) 0 ["cam"; "mic"] "bob"
           (mkDesc SdpOffer "cam,mic"));
    reflexivity.
Defined.

(** ** Disconnect *)


Lemma peerConnectionRef_records new s :
  peerConnectionRef (records new s) = peerConnectionRef s.
Proof.
  revert s. induction new as [| e rest IH]; intros s; [ reflexivity | ].
  cbn. unfold records in IH. now rewrite IH.
Qed.


(** ** Screen sharing *)


Lemma bind_ok {A B} (m : M A) (k : A -> M B) s a s' :
  m s = (Ok a, s') -> bind m k s = k a s'.
Proof. intros H. unfold bind. now rewrite H. Qed.

Lemma attach_ok E id t s :
  peerConnectionRef s = Some id ->
  rtc_addTrack E (trace s) id t = true ->
  attach E t s = (Ok tt, record (Pc id (AddTrack t true)) s).
Proof.
  intros Hpc Hok. unfold attach, addTrack, perform, modify, bind, gets.
  rewrite Hpc, Hok. reflexivity.
Qed.

Lemma forEach_attach E id stream s :
  peerConnectionRef s = Some id ->
  (forall tr t, rtc_addTrack E tr id t = true) ->
  forEach stream (attach E) s
  = (Ok tt, records (map (fun t => Pc id (AddTrack t true)) stream) s).
Proof.
  intros Hpc Hok. revert s Hpc.
  induction stream as [| t rest IH]; intros s Hpc; [ reflexivity | ].
  cbn [forEach map].
  rewrite (bind_ok _ _ _ _ _ (attach_ok E id t s Hpc (Hok _ _))).
  rewrite IH by exact Hpc. reflexivity.
Qed.

Lemma senders_attached id stream :
  senders id (map (fun t => Pc id (AddTrack t true)) stream) = stream.
Proof.
  induction stream as [| t rest IH]; [ reflexivity | ].
  unfold senders, calls_on in *. cbn. rewrite Nat.eqb_refl. cbn.
  now rewrite IH.
Qed.

Lemma emitted_silent new : forallb silent new = true -> emitted new = [].
Proof.
  induction new as [| e rest IH]; [ reflexivity | ].
  cbn [forallb]. intros H. apply andb_true_iff in H. destruct H as [He Hrest].
  destruct e; try discriminate He; cbn; apply IH; exact Hrest.
Qed.






(** ** ICE candidates *)

(** C1, as stated, fails: alice's client has sent its offer and has no
    remote description yet; two candidates arrive, then the answer.  Both
    candidates are handed to the connection before the remote description. *)
Lemma candidates_applied_before_remote_description :
  remote_description_set 0 (trace offering) = false
  /\ ~ buffers_candidates browser offering 0 ["c1"; "c2"]
         (mkDesc SdpAnswer "cam,mic").
Proof.
  split; [ reflexivity | ].
  intros [H _]. vm_compute in H. discriminate H.
Qed.

Lemma step_ice_candidate E s id c :
  peerConnectionRef s = Some id ->
  step E s (IceCandidateIn c)
  = render (record (Pc id (AddIceCandidate c (rtc_addIceCandidate E (trace s) id c))) s).
Proof.
  intros Hpc. unfold step. cbn [handle].
  unfold on_ice_candidate, addIceCandidate, perform, modify, bind, gets.
  rewrite Hpc. reflexivity.
Qed.

Lemma step_answer E s id d :
  peerConnectionRef s = Some id ->
  step E s (AnswerIn d)
  = render (record (Pc id (SetRemoteDescription d
                             (rtc_setRemoteDescription E (trace s) id d))) s).
Proof.
  intros Hpc. unfold step. cbn [handle].
  unfold on_answer, setRemoteDescription, perform, modify, bind, gets.
  rewrite Hpc. reflexivity.
Qed.

(** With no peer connection a candidate is dropped. *)
Lemma ice_candidate_dropped_without_connection E s c :
  peerConnectionRef s = None ->
  trace (step E s (IceCandidateIn c)) = trace s.
Proof.
  intros Hpc. unfold step. cbn [handle].
  unfold on_ice_candidate, bind, gets. rewrite Hpc. reflexivity.
Qed.

Lemma candidates_applied_one id c ok :
  candidates_applied id [Pc id (AddIceCandidate c ok)] = [c].
Proof. unfold candidates_applied, calls_on. cbn. now rewrite Nat.eqb_refl. Qed.

Lemma run_ice_candidates E id cs : forall s,
  peerConnectionRef s = Some id ->
  peerConnectionRef (run E s (map IceCandidateIn cs)) = Some id
  /\ candidates_applied id (trace (run E s (map IceCandidateIn cs)))
     = candidates_applied id (trace s) ++ cs.
Proof.
  induction cs as [| c rest IH]; intros s Hpc.
  - cbn. split; [ exact Hpc | now rewrite app_nil_r ].
  - cbn [map]. rewrite run_cons, (step_ice_candidate E s id c Hpc).
    destruct (IH (render (record (Pc id (AddIceCandidate c
                (rtc_addIceCandidate E (trace s) id c))) s)) Hpc) as [Hpc' Happlied].
    split; [ exact Hpc' | ].
    rewrite Happlied. cbn [render trace record setScreenVideoRef setRemoteVideoRef].
    rewrite candidates_applied_app, candidates_applied_one, <- app_assoc.
    reflexivity.
Qed.

(** C1, amended. While a peer connection exists, every candidate received
    is handed to [addIceCandidate] at once, as the only effect of its
    arrival, whether or not a remote description has been set; so the
    candidates are applied in the order received.  Nothing is held back: an
    answer that arrives afterwards makes one call, [setRemoteDescription],
    and no candidate follows it. *)
Theorem ice_candidates_applied_on_receipt
  (E : Engine) (s : State) (id : nat) (cs : list RTCIceCandidateInit) :
  peerConnectionRef s = Some id ->
  (forall c, exists ok,
      trace (step E s (IceCandidateIn c))
      = trace s ++ [Pc id (AddIceCandidate c ok)])
  /\ candidates_applied id (trace (run E s (map IceCandidateIn cs)))
     = candidates_applied id (trace s) ++ cs
  /\ (forall d, exists ok,
        trace (step E (run E s (map IceCandidateIn cs)) (AnswerIn d))
        = trace (run E s (map IceCandidateIn cs))
          ++ [Pc id (SetRemoteDescription d ok)]).
Proof.
  intros Hpc. destruct (run_ice_candidates E id cs s Hpc) as [Hpc' Happlied].
  split; [ | split ].
  - intros c. exists (rtc_addIceCandidate E (trace s) id c).
    now rewrite (step_ice_candidate E s id c Hpc).
  - exact Happlied.
  - intros d.
    exists (rtc_setRemoteDescription E (trace (run E s (map IceCandidateIn cs))) id d).
    now rewrite (step_answer E _ id d Hpc').
Qed.

Lemma ice_candidates_applied_on_receipt_witness :
  peerConnectionRef offering = Some 0
  /\ remote_description_set 0 (trace offering) = false
  /\ candidates_applied 0
       (trace (run browser offering (map IceCandidateIn ["c1"; "c2"])))
     = ["c1"; "c2"].
Proof.
  split; [ reflexivity | split; [ reflexivity | ] ].
  apply (ice_candidates_applied_on_receipt browser offering 0 ["c1"; "c2"]).
  reflexivity.
Defined.

(** ** Chat *)

Lemma handle_preserves_messages E ev :
  is_chat ev = false -> preserves messages (handle E ev).
Proof.
  destruct ev; cbn [is_chat]; intros H; try discriminate H;
    cbn [handle]; unfold_client; preserves_all.
Qed.

Lemma handle_preserves_userId E ev :
  is_typing ev = false -> preserves userId (handle E ev).
Proof.
  destruct ev; cbn [is_typing]; intros H; try discriminate H;
    cbn [handle]; unfold_client; preserves_all.
Qed.

Lemma handle_appends_no_chat E ev :
  is_chat ev = false -> appends not_chat (handle E ev).
Proof.
  destruct ev; cbn [is_chat]; intros H; try discriminate H;
    cbn [handle]; unfold_client; appends_all.
Qed.

Lemma run_preserves_messages E evs : forall s,
  forallb (fun ev => negb (is_chat ev)) evs = true ->
  messages (run E s evs) = messages s.
Proof.
  induction evs as [| ev rest IH]; intros s H; [ reflexivity | ].
  cbn [forallb] in H. apply andb_true_iff in H. destruct H as [Hev Hrest].
  rewrite run_cons, (IH _ Hrest). unfold step.
  apply negb_true_iff in Hev. apply (handle_preserves_messages E ev Hev).
Qed.

Lemma run_preserves_userId E evs : forall s,
  forallb (fun ev => negb (is_typing ev)) evs = true ->
  userId (run E s evs) = userId s.
Proof.
  induction evs as [| ev rest IH]; intros s H; [ reflexivity | ].
  cbn [forallb] in H. apply andb_true_iff in H. destruct H as [Hev Hrest].
  rewrite run_cons, (IH _ Hrest). unfold step.
  apply negb_true_iff in Hev. apply (handle_preserves_userId E ev Hev).
Qed.

Lemma run_appends_no_chat E evs : forall s,
  forallb (fun ev => negb (is_chat ev)) evs = true ->
  exists new, trace (run E s evs) = trace s ++ new /\ forallb not_chat new = true.
Proof.
  induction evs as [| ev rest IH]; intros s H.
  - exists []. split; [ cbn; now rewrite app_nil_r | reflexivity ].
  - cbn [forallb] in H. apply andb_true_iff in H. destruct H as [Hev Hrest].
    apply negb_true_iff in Hev. rewrite run_cons.
    destruct (IH (step E s ev) Hrest) as [n2 [E2 F2]].
    destruct (handle_appends_no_chat E ev Hev s) as [n1 [E1 F1]].
    exists (n1 ++ n2). split.
    + rewrite E2. unfold step. rewrite trace_render, E1. now rewrite app_assoc.
    + rewrite forallb_app, F1, F2. reflexivity.
Qed.

Lemma run_preserves_userId_after E s evs ev :
  is_typing ev = false ->
  userId (run E s (evs ++ [ev])) = userId (run E s evs).
Proof.
  intros H. rewrite run_app. apply run_preserves_userId.
  cbn. now rewrite H.
Qed.

(** What the relay hands over is never typing; it touches the chat only
    when it carries a chat message. *)
Lemma relay_not_typing msgs :
  forallb (fun ev => negb (is_typing ev)) (flat_map relay msgs) = true.
Proof.
  induction msgs as [| m rest IH]; [ reflexivity | ].
  cbn [flat_map]. rewrite forallb_app, IH. destruct m; reflexivity.
Qed.

Lemma relay_no_chat new :
  forallb not_chat new = true ->
  forallb (fun ev => negb (is_chat ev)) (flat_map relay (emitted new)) = true.
Proof.
  induction new as [| e rest IH]; [ reflexivity | ].
  cbn [forallb]. intros H. apply andb_true_iff in H. destruct H as [He Hrest].
  change (e :: rest) with ([e] ++ rest).
  rewrite emitted_app, flat_map_app, forallb_app, (IH Hrest), andb_true_r.
  destruct e as [m | | | | | | |]; try reflexivity.
  destruct m; try reflexivity; discriminate He.
Qed.

Lemma deliver_preserves_userId E before after receiver :
  userId (deliver E before after receiver) = userId receiver.
Proof. unfold deliver. apply run_preserves_userId, relay_not_typing. Qed.

(** A client that was not asked to send or show a chat message hands the
    relay nothing that touches the chat of its peer. *)
Lemma deliver_preserves_messages E E' s evs receiver :
  forallb (fun ev => negb (is_chat ev)) evs = true ->
  messages (deliver E s (run E' s evs) receiver) = messages receiver.
Proof.
  intros H. destruct (run_appends_no_chat E' evs s H) as [new [Etr Hnew]].
  unfold deliver. rewrite (outbox_app s _ new Etr).
  apply run_preserves_messages, relay_no_chat, Hnew.
Qed.

(** The chat hop: alice types "hi" and sends; the relay hands it to bob. *)
Lemma chat_hop EA EB a b :
  userId a = "alice" ->
  messages (deliver EB a (run EA a [TypeMessage "hi"; ClickSend]) b)
  = messages b ++ ["alice: hi"].
Proof.
  intros Hname. unfold deliver.
  rewrite (outbox_app a _ [Emit (send_message "alice: hi")]).
  - reflexivity.
  - cbn. rewrite Hname. reflexivity.
Qed.

(** The scenario with two clients of the screen-share revision: bob's
    message list ends as ["alice: hi"], whatever the two browsers do with
    the negotiation and whether or not the cameras were granted. *)
Lemma chat_arrives_with_sender_name
  (EA EB : Engine) (camA camB : option MediaStream) :
  messages (snd (scenario EA EB camA camB)) = ["alice: hi"].
Proof.
  unfold scenario. cbv zeta. cbn [snd].
  rewrite chat_hop.
  - (* bob's list was empty before alice sent *)
    unfold deliver at 2.
    rewrite deliver_preserves_messages.
    + rewrite run_preserves_messages by reflexivity. reflexivity.
    + destruct (run_appends_no_chat EB
                  [TypeRoomId "r1"; TypeUserId "bob"; ClickJoin] (init camB)
                  eq_refl) as [new [Etr Hnew]].
      rewrite (outbox_app _ _ new Etr). apply relay_no_chat, Hnew.
  - (* alice is still called alice *)
    rewrite !deliver_preserves_userId.
    exact (run_preserves_userId_after EA (init camA)
             [TypeRoomId "r1"; TypeUserId "alice"] ClickJoin eq_refl).
Qed.

(** *** The same for [src/App.tsx] *)

Lemma AppTsx_handle_preserves_messages E ev :
  is_chat ev = false -> preserves messages (AppTsx.handle E ev).
Proof.
  destruct ev; cbn [is_chat]; intros H; try discriminate H;
    cbn [AppTsx.handle]; unfold_client; preserves_all.
Qed.

Lemma AppTsx_handle_preserves_userId E ev :
  is_typing ev = false -> preserves userId (AppTsx.handle E ev).
Proof.
  destruct ev; cbn [is_typing]; intros H; try discriminate H;
    cbn [AppTsx.handle]; unfold AppTsx.sendMessage; unfold_client;
    preserves_all.
Qed.

Lemma AppTsx_handle_appends_no_chat E ev :
  is_chat ev = false -> appends not_chat (AppTsx.handle E ev).
Proof.
  destruct ev; cbn [is_chat]; intros H; try discriminate H;
    cbn [AppTsx.handle]; unfold_client; appends_all.
Qed.

Lemma AppTsx_run_cons E s ev evs :
  AppTsx.run E s (ev :: evs) = AppTsx.run E (AppTsx.step E s ev) evs.
Proof. reflexivity. Qed.

Lemma AppTsx_run_preserves_messages E evs : forall s,
  forallb (fun ev => negb (is_chat ev)) evs = true ->
  messages (AppTsx.run E s evs) = messages s.
Proof.
  induction evs as [| ev rest IH]; intros s H; [ reflexivity | ].
  cbn [forallb] in H. apply andb_true_iff in H. destruct H as [Hev Hrest].
  rewrite AppTsx_run_cons, (IH _ Hrest). unfold AppTsx.step.
  apply negb_true_iff in Hev. apply (AppTsx_handle_preserves_messages E ev Hev).
Qed.

Lemma AppTsx_run_appends_no_chat E evs : forall s,
  forallb (fun ev => negb (is_chat ev)) evs = true ->
  exists new,
    trace (AppTsx.run E s evs) = trace s ++ new /\ forallb not_chat new = true.
Proof.
  induction evs as [| ev rest IH]; intros s H.
  - exists []. split; [ cbn; now rewrite app_nil_r | reflexivity ].
  - cbn [forallb] in H. apply andb_true_iff in H. destruct H as [Hev Hrest].
    apply negb_true_iff in Hev. rewrite AppTsx_run_cons.
    destruct (IH (AppTsx.step E s ev) Hrest) as [n2 [E2 F2]].
    destruct (AppTsx_handle_appends_no_chat E ev Hev s) as [n1 [E1 F1]].
    exists (n1 ++ n2). split.
    + rewrite E2. unfold AppTsx.step. rewrite E1. now rewrite app_assoc.
    + rewrite forallb_app, F1, F2. reflexivity.
Qed.

Lemma AppTsx_deliver_preserves_messages E E' s evs receiver :
  forallb (fun ev => negb (is_chat ev)) evs = true ->
  messages (AppTsx.deliver E s (AppTsx.run E' s evs) receiver)
  = messages receiver.
Proof.
  intros H. destruct (AppTsx_run_appends_no_chat E' evs s H) as [new [Etr Hnew]].
  unfold AppTsx.deliver. rewrite (outbox_app s _ new Etr).
  apply AppTsx_run_preserves_messages, relay_no_chat, Hnew.
Qed.

(** The chat hop in [src/App.tsx]: the text goes out bare, whoever sends. *)
Lemma AppTsx_chat_hop EA EB a b :
  messages (AppTsx.deliver EB a (AppTsx.run EA a [TypeMessage "hi"; ClickSend]) b)
  = messages b ++ ["hi"].
Proof.
  unfold AppTsx.deliver.
  rewrite (outbox_app a _ [Emit (send_message "hi")]); reflexivity.
Qed.

Lemma AppTsx_chat_arrives_bare
  (EA EB : Engine) (camA camB : option MediaStream) :
  messages (snd (AppTsx.scenario EA EB camA camB)) = ["hi"].
Proof.
  unfold AppTsx.scenario. cbv zeta. cbn [snd].
  rewrite AppTsx_chat_hop.
  unfold AppTsx.deliver at 2.
  rewrite AppTsx_deliver_preserves_messages.
  - rewrite AppTsx_run_preserves_messages by reflexivity. reflexivity.
  - destruct (AppTsx_run_appends_no_chat EB
                [TypeRoomId "r1"; TypeUserId "bob"; ClickJoin] (init camB)
                eq_refl) as [new [Etr Hnew]].
    rewrite (outbox_app _ _ new Etr). apply relay_no_chat, Hnew.
Qed.

(** C7, as stated, fails for [src/App.tsx]: in the end-to-end scenario run
    with two clients of that revision bob's message list is ["hi"], without
    the sender's name. *)
Lemma AppTsx_chat_lacks_sender_name :
  ~ shows_sender_name
      (AppTsx.scenario browser browser
         (Some ["camA"; "micA"]) (Some ["camB"; "micB"])).
Proof. unfold shows_sender_name. vm_compute. discriminate. Qed.

(** C7, amended. In the end-to-end scenario (alice joins "r1", bob joins
    after her, the offer and the answer are exchanged, alice sends "hi")
    bob's message list ends with one entry, the text as alice's client put
    it on the channel: ["alice: hi"] between two clients of the screen-share
    revision, whose [sendMessage] puts the sender's name in front, and
    ["hi"] between two clients of [src/App.tsx], whose [sendMessage] sends
    the bare text.  Either holds whatever the two browsers do with the
    negotiation and whether or not the cameras were granted. *)
Theorem chat_arrives_as_the_revision_sends_it
  (EA EB : Engine) (camA camB : option MediaStream) :
  messages (snd (scenario EA EB camA camB)) = ["alice: hi"]
  /\ messages (snd (AppTsx.scenario EA EB camA camB)) = ["hi"].
Proof.
  split; [ apply chat_arrives_with_sender_name | apply AppTsx_chat_arrives_bare ].
Qed.

(** The same scenario run against a browser that accepts the calls: alice
    sends one offer, bob one answer, and alice sees her own message too. *)
Lemma scenario_negotiates_once :
  let (a, b) := scenario browser browser (Some ["camA"; "micA"]) (Some ["camB"; "micB"]) in
  emitted (trace a)
  = [join_room "r1" "alice"; offer_msg (mkDesc SdpOffer "camA,micA");
     send_message "alice: hi"]
  /\ emitted (trace b)
     = [join_room "r1" "bob"; answer_msg (mkDesc SdpAnswer "camB,micB")]
  /\ remote_description_set 0 (trace a) = true
  /\ remote_description_set 0 (trace b) = true
  /\ messages a = ["alice: hi"].
Proof. vm_compute. repeat split. Qed.

(** In [src/App.tsx] the text is sent bare and shown locally as "Me: ...":
    there the name in front of a delivered message is not the client's
    doing. *)
Lemma AppTsx_sendMessage_sends_bare_text s :
  AppTsx.sendMessage "hi" s
  = (Ok tt, setMessages (fun prev => prev ++ ["Me: hi"])
              (record (Emit (send_message "hi")) s)).
Proof. reflexivity. Qed.

(** ** When the browser refuses *)

(** The hypotheses on the browser in C4 are needed: an offer the browser
    refuses ends [handleOffer] after that one call, and no answer is sent. *)
Lemma handleOffer_stops_on_refusal E s id offer :
  peerConnectionRef s = Some id ->
  rtc_setRemoteDescription E (trace s) id offer = false ->
  handleOffer E offer s
  = (Raise (Rejected "setRemoteDescription"),
     record (Pc id (SetRemoteDescription offer false)) s).
Proof.
  intros Hpc Hno.
  unfold handleOffer, await_setRemoteDescription, perform, modify, bind, gets.
  rewrite Hpc, Hno. reflexivity.
Qed.

Lemma refused_offer_gets_no_answer :
  outbox joined (step refusing joined (OfferIn (mkDesc SdpOffer "cam,mic"))) = [].
Proof. reflexivity. Qed.

(** ** The screen-share view *)

Lemma attach_loop_preserves {B} (f : State -> B) E stream :
  (forall e s, f (record e s) = f s) ->
  preserves f (forEach stream (attach E)).
Proof.
  intros Hf. apply preserves_forEach. intros t.
  unfold attach, addTrack. preserves_all;
    try (apply preserves_modify; intros ?; apply Hf).
Qed.

(** With the screen-share video not mounted, [startScreenShare] never
    reaches [setIsScreenSharing(true)]: the assignment to
    [screenVideoRef.current!.srcObject] throws first. *)
Lemma startScreenShare_unmounted E s :
  screenVideoRef s = None ->
  isScreenSharing (snd (startScreenShare E s)) = isScreenSharing s.
Proof.
  intros Href.
  unfold startScreenShare, try_catch, await_getDisplayMedia, bind, gets,
    perform, modify, throw, ret.
  destruct (media_getDisplayMedia E (trace s)) as [stream |]; cbn;
    [ | reflexivity ].
  destruct (peerConnectionRef s); [ | reflexivity ].
  pose proof (attach_loop_preserves screenVideoRef E stream
                (fun _ _ => eq_refl) (record (GetDisplayMedia (Some stream)) s))
    as Hscreen.
  pose proof (attach_loop_preserves isScreenSharing E stream
                (fun _ _ => eq_refl) (record (GetDisplayMedia (Some stream)) s))
    as Hshare.
  destruct (forEach stream (attach E) (record (GetDisplayMedia (Some stream)) s))
    as [[[] | e] s2]; cbn in Hscreen, Hshare |- *.
  - rewrite Hscreen, Href. cbn. exact Hshare.
  - exact Hshare.
Qed.

Lemma handle_preserves_isScreenSharing E ev :
  is_screen_share ev = false -> preserves isScreenSharing (handle E ev).
Proof.
  destruct ev; cbn [is_screen_share]; intros H; try discriminate H;
    cbn [handle]; unfold_client; preserves_all.
Qed.

Lemma step_keeps_view_hidden E s ev :
  isScreenSharing s = false -> screenVideoRef s = None ->
  isScreenSharing (step E s ev) = false /\ screenVideoRef (step E s ev) = None.
Proof.
  intros Hshare Href.
  assert (H : isScreenSharing (snd (handle E ev s)) = false).
  { destruct (is_screen_share ev) eqn:Hev.
    - destruct ev; try discriminate Hev; cbn [handle].
      + now rewrite startScreenShare_unmounted.
      + unfold bind, gets. rewrite Hshare. exact Hshare.
    - now rewrite (handle_preserves_isScreenSharing E ev Hev s). }
  unfold step, render. cbn. rewrite H. split; reflexivity.
Qed.

(** X16. From the initial state the screen-share view is never shown and
    its video element is never mounted, over any run and against any
    browser: [startScreenShare] needs the mounted video to reach
    [setIsScreenSharing(true)], and the video is mounted only while
    [isScreenSharing] is true. *)
Lemma screen_share_view_never_shown E camera evs :
  isScreenSharing (run E (init camera) evs) = false
  /\ screenVideoRef (run E (init camera) evs) = None.
Proof.
  assert (H : forall s, isScreenSharing s = false -> screenVideoRef s = None ->
            isScreenSharing (run E s evs) = false
            /\ screenVideoRef (run E s evs) = None).
  { induction evs as [| ev rest IH]; intros s Hshare Href.
    - now split.
    - rewrite run_cons.
      destruct (step_keeps_view_hidden E s ev Hshare Href) as [H1 H2].
      now apply IH. }
  now apply H.
Qed.

(** * Further properties of the component *)

(** ** The outcomes of the two negotiation handlers *)

Lemma handleOffer_outcomes E offer s id :
  peerConnectionRef s = Some id ->
  exists new,
    offer_handling id offer (fst (handleOffer E offer s)) new
    /\ snd (handleOffer E offer s) = records new s.
Proof.
  intros Hpc.
  unfold handleOffer, await_setRemoteDescription, await_createAnswer,
    await_setLocalDescription, perform, modify, throw, ret, bind, gets.
  rewrite Hpc.
  destruct (rtc_setRemoteDescription E (trace s) id offer); cbn;
    [ | eexists; split; [ apply offer_refused | reflexivity ] ].
  destruct (rtc_createAnswer E _ id) as [answer |]; cbn;
    [ | eexists; split; [ apply answer_not_created | reflexivity ] ].
  destruct (rtc_setLocalDescription E _ id answer); cbn.
  - eexists; split; [ apply answer_sent | reflexivity ].
  - eexists; split; [ apply answer_refused | reflexivity ].
Qed.

Lemma on_user_connected_outcomes E uid s id tracks :
  localStream s = Some tracks ->
  peerConnectionRef s = Some id ->
  fst (on_user_connected E uid s) = Ok tt
  /\ exists new,
       offer_making id new
       /\ snd (on_user_connected E uid s)
          = records (ConsoleLog ("User connected: " ++ uid)%string :: new) s.
Proof.
  intros Hcam Hpc.
  unfold on_user_connected, detached, try_catch, createOffer,
    await_createOffer, await_setLocalDescription, perform, modify, throw, ret,
    bind, gets.
  cbn -[String.append]. rewrite Hcam. cbn -[String.append]. rewrite Hpc.
  destruct (rtc_createOffer E _ id) as [offer |]; cbn -[String.append];
    [ | split; [ reflexivity
               | eexists; split; [ apply offer_not_created | reflexivity ] ] ].
  destruct (rtc_setLocalDescription E _ id offer); cbn -[String.append].
  - split; [ reflexivity
           | eexists; split; [ apply offer_sent | reflexivity ] ].
  - split; [ reflexivity
           | eexists; split; [ apply offer_refused_locally | reflexivity ] ].
Qed.

Lemma outbox_records s new : outbox s (records new s) = emitted new.
Proof. apply outbox_app, trace_records. Qed.

Lemma answers_sent_app tr new :
  answers_sent (tr ++ new) = answers_sent tr ++ answers_sent new.
Proof. unfold answers_sent. now rewrite emitted_app, filter_app. Qed.

Lemma answers_sent_not_answer new :
  forallb not_answer new = true -> answers_sent new = [].
Proof.
  induction new as [| e rest IH]; [ reflexivity | ].
  cbn [forallb]. intros H. apply andb_true_iff in H. destruct H as [He Hrest].
  destruct e as [m | | | | | | |]; try (apply IH; exact Hrest).
  destruct m; try discriminate He; apply IH; exact Hrest.
Qed.

Lemma handle_appends_no_answer E ev :
  is_offer_in ev = false -> appends not_answer (handle E ev).
Proof.
  destruct ev; cbn [is_offer_in]; intros H; try discriminate H;
    cbn [handle]; unfold_client; appends_all.
Qed.

(** What one "user-connected" leaves on the trace, in every state. *)
Lemma on_user_connected_trace E uid s :
  fst (on_user_connected E uid s) = Ok tt
  /\ (snd (on_user_connected E uid s)
      = record (ConsoleLog ("User connected: " ++ uid)%string) s
      \/ exists id new,
           peerConnectionRef s = Some id
           /\ offer_making id new
           /\ snd (on_user_connected E uid s)
              = records (ConsoleLog ("User connected: " ++ uid)%string :: new) s).
Proof.
  destruct (localStream s) as [tracks |] eqn:Hcam.
  - destruct (peerConnectionRef s) as [id |] eqn:Hpc.
    + destruct (on_user_connected_outcomes E uid s id tracks Hcam Hpc)
        as [Hok [new [Hnew Hs]]].
      split; [ exact Hok | right; exists id, new; now repeat split ].
    + unfold on_user_connected, detached, try_catch, createOffer, perform,
        modify, bind, gets. cbn -[String.append]. rewrite Hcam.
      cbn -[String.append]. rewrite Hpc. split; [ reflexivity | now left ].
  - unfold on_user_connected, perform, modify, bind, gets.
    cbn -[String.append]. rewrite Hcam. split; [ reflexivity | now left ].
Qed.

(** X1. The "user-connected" listener never throws, whatever the browser
    answers: [createOffer] is called without [await], so its rejection is
    nobody's.  Without a camera stream, or without a peer connection, the
    listener only writes its console line; in every case it sends at most
    one message. *)
Theorem user_connected_never_throws (E : Engine) (uid : string) (s : State) :
  fst (on_user_connected E uid s) = Ok tt
  /\ (localStream s = None \/ peerConnectionRef s = None ->
        snd (on_user_connected E uid s)
        = record (ConsoleLog ("User connected: " ++ uid)%string) s)
  /\ length (outbox s (snd (on_user_connected E uid s))) <= 1.
Proof.
  destruct (on_user_connected_trace E uid s) as [Hok Hcases].
  split; [ exact Hok | split ].
  - intros Hnone.
    destruct Hcases as [Hlog | [id [new [Hpc [Hnew Hs]]]]]; [ exact Hlog | ].
    destruct Hnone as [Hcam | Hnopc]; [ | congruence ].
    unfold on_user_connected, perform, modify, bind, gets.
    cbn -[String.append]. now rewrite Hcam.
  - destruct Hcases as [Hlog | [id [new [Hpc [Hnew Hs]]]]].
    + rewrite Hlog.
      change (record (ConsoleLog ("User connected: " ++ uid)%string) s)
        with (records [ConsoleLog ("User connected: " ++ uid)%string] s).
      rewrite outbox_records. cbn. lia.
    + rewrite Hs, outbox_records. destruct Hnew; cbn; lia.
Qed.

(** X2. [handleOffer] on an existing connection sends an answer exactly
    when it returns normally, and then exactly one: the offer was accepted
    as remote description and the answer sent was accepted as local
    description.  When the browser refuses any of the three calls the
    handler throws, nothing has been sent and the connection reference is
    as before. *)
Theorem handleOffer_answers_only_on_success
  (E : Engine) (s : State) (id : nat) (offer : RTCSessionDescriptionInit) :
  peerConnectionRef s = Some id ->
  (fst (handleOffer E offer s) = Ok tt ->
     exists answer,
       outbox s (snd (handleOffer E offer s)) = [answer_msg answer]
       /\ In (Pc id (SetRemoteDescription offer true))
             (trace (snd (handleOffer E offer s)))
       /\ In (Pc id (SetLocalDescription answer true))
             (trace (snd (handleOffer E offer s))))
  /\ (forall e, fst (handleOffer E offer s) = Raise e ->
        outbox s (snd (handleOffer E offer s)) = []
        /\ peerConnectionRef (snd (handleOffer E offer s)) = Some id).
Proof.
  intros Hpc.
  destruct (handleOffer_outcomes E offer s id Hpc) as [new [Hnew Hs]].
  rewrite Hs, outbox_records, peerConnectionRef_records, trace_records.
  split.
  - intros Hok. destruct Hnew as [ | | answer | answer]; try discriminate Hok.
    exists answer. split; [ reflexivity | ].
    split; apply in_or_app; right; cbn; tauto.
  - intros e He. destruct Hnew; try discriminate He; now split.
Qed.

Lemma handleOffer_answers_only_on_success_witness :
  peerConnectionRef joined = Some 0
  /\ fst (handleOffer refusing (mkDesc SdpOffer "cam,mic") joined)
     = Raise (Rejected "setRemoteDescription")
  /\ outbox joined (snd (handleOffer refusing (mkDesc SdpOffer "cam,mic") joined))
     = [].
Proof.
  split; [ reflexivity | split; [ reflexivity | ] ].
  apply (handleOffer_answers_only_on_success refusing joined 0
           (mkDesc SdpOffer "cam,mic") eq_refl)
    with (e := Rejected "setRemoteDescription").
  reflexivity.
Defined.

(** ** Counting the descriptions sent *)

Lemma step_offers_bound E s ev :
  length (offers_sent (trace (step E s ev)))
  <= length (offers_sent (trace s)) + length (filter is_user_connected [ev]).
Proof.
  destruct (is_user_connected ev) eqn:Hev.
  - destruct ev; try discriminate Hev. unfold step. cbn [handle].
    rewrite trace_render.
    destruct (on_user_connected_trace E uid s)
      as [_ [Hlog | [id [new [Hpc [Hnew Hs]]]]]].
    + rewrite Hlog. cbn [record trace]. rewrite offers_sent_app. cbn.
      rewrite app_nil_r. lia.
    + rewrite Hs, trace_records, offers_sent_app, length_app.
      destruct Hnew; cbn; lia.
  - rewrite (step_no_offer E s ev Hev). lia.
Qed.

Lemma step_answers_bound E s ev :
  length (answers_sent (trace (step E s ev)))
  <= length (answers_sent (trace s)) + length (filter is_offer_in [ev]).
Proof.
  destruct (is_offer_in ev) eqn:Hev.
  - destruct ev; try discriminate Hev. unfold step. cbn [handle].
    rewrite trace_render.
    destruct (peerConnectionRef s) as [id |] eqn:Hpc.
    + destruct (handleOffer_outcomes E d s id Hpc) as [new [Hnew Hs]].
      rewrite Hs, trace_records, answers_sent_app, length_app.
      destruct Hnew; cbn; lia.
    + unfold handleOffer, bind, gets. rewrite Hpc. cbn. lia.
  - unfold step. rewrite trace_render.
    destruct (handle_appends_no_answer E ev Hev s) as [new [Etr Hnew]].
    rewrite Etr, answers_sent_app, (answers_sent_not_answer new Hnew), app_nil_r.
    cbn. destruct ev; cbn; lia.
Qed.

(** X3. Over any run, against any browser, the client sends at most one
    offer per "user-connected" it received and at most one answer per
    "offer" it received. *)
Theorem descriptions_sent_are_bounded (E : Engine) (s : State) (evs : list Event) :
  length (offers_sent (trace (run E s evs)))
  <= length (offers_sent (trace s)) + length (filter is_user_connected evs)
  /\ length (answers_sent (trace (run E s evs)))
     <= length (answers_sent (trace s)) + length (filter is_offer_in evs).
Proof.
  revert s. induction evs as [| ev rest IH]; intros s.
  - cbn. lia.
  - rewrite run_cons. destruct (IH (step E s ev)) as [IHo IHa].
    pose proof (step_offers_bound E s ev) as Ho.
    pose proof (step_answers_bound E s ev) as Ha.
    change (ev :: rest) with ([ev] ++ rest).
    rewrite !filter_app, !length_app. lia.
Qed.

(** ** Descriptions are applied before they are sent *)

Lemma desc_eqb_refl d : desc_eqb d d = true.
Proof.
  unfold desc_eqb. rewrite String.eqb_refl.
  destruct (sd_type d); reflexivity.
Qed.

Lemma applied_before_any prev e :
  applied_before None e = true -> applied_before prev e = true.
Proof.
  destruct e as [m | | | | | | |]; try reflexivity.
  destruct m; try reflexivity; discriminate.
Qed.

Lemma described_any prev new :
  described None new = true -> described prev new = true.
Proof.
  destruct new as [| e rest]; [ reflexivity | ].
  cbn [described]. intros H. apply andb_true_iff in H. destruct H as [He Hrest].
  now rewrite (applied_before_any prev e He), Hrest.
Qed.

Lemma described_app prev tr new :
  described prev tr = true -> described None new = true ->
  described prev (tr ++ new) = true.
Proof.
  revert prev. induction tr as [| e rest IH]; intros prev Htr Hnew.
  - now apply described_any.
  - cbn [app described] in *. apply andb_true_iff in Htr.
    destruct Htr as [He Hrest]. now rewrite He, (IH (Some e) Hrest Hnew).
Qed.

Lemma described_quiet prev new :
  forallb not_description new = true -> described prev new = true.
Proof.
  revert prev. induction new as [| e rest IH]; intros prev H; [ reflexivity | ].
  cbn [forallb] in H. apply andb_true_iff in H. destruct H as [He Hrest].
  cbn [described]. rewrite (IH (Some e) Hrest), andb_true_r.
  destruct e as [m | | | | | | |]; try reflexivity.
  destruct m; try reflexivity; discriminate He.
Qed.

Lemma handle_appends_no_description E ev :
  is_user_connected ev = false -> is_offer_in ev = false ->
  appends not_description (handle E ev).
Proof.
  destruct ev; cbn [is_user_connected is_offer_in]; intros H1 H2;
    try discriminate H1; try discriminate H2;
    cbn [handle]; unfold_client; appends_all.
Qed.

Lemma step_described E s ev :
  exists new,
    trace (step E s ev) = trace s ++ new /\ described None new = true.
Proof.
  unfold step. rewrite trace_render.
  destruct (is_user_connected ev) eqn:Huc.
  - destruct ev as [| | | | | | | | uid | | | | | |]; try discriminate Huc.
    cbn [handle].
    destruct (on_user_connected_trace E uid s)
      as [_ [Hlog | [id [new [Hpc [Hnew Hs]]]]]].
    + rewrite Hlog. eexists. split; reflexivity.
    + rewrite Hs, trace_records. eexists. split; [ reflexivity | ].
      destruct Hnew; cbn; try reflexivity.
      now rewrite desc_eqb_refl.
  - destruct (is_offer_in ev) eqn:Hoff.
    + destruct ev as [| | | | | | | | | d | | | | |]; try discriminate Hoff.
      cbn [handle]. destruct (peerConnectionRef s) as [id |] eqn:Hpc.
      * destruct (handleOffer_outcomes E d s id Hpc) as [new [Hnew Hs]].
        rewrite Hs, trace_records. exists new. split; [ reflexivity | ].
        destruct Hnew; cbn; try reflexivity.
        now rewrite desc_eqb_refl.
      * unfold handleOffer, bind, gets. rewrite Hpc. cbn.
        exists []. split; [ now rewrite app_nil_r | reflexivity ].
    + destruct (handle_appends_no_description E ev Huc Hoff s)
        as [new [Etr Hnew]].
      exists new. split; [ exact Etr | now apply described_quiet ].
Qed.

Lemma run_described E evs : forall s,
  described None (trace s) = true ->
  described None (trace (run E s evs)) = true.
Proof.
  induction evs as [| ev rest IH]; intros s H; [ exact H | ].
  rewrite run_cons. apply IH.
  destruct (step_described E s ev) as [new [Etr Hnew]].
  rewrite Etr. now apply described_app.
Qed.

(** X4. Whatever happens to a client and whatever its browser answers,
    every offer and every answer it puts on the signaling channel is the
    description the browser accepted as local description in the call just
    before: no description is sent that was not applied locally. *)
Theorem sent_descriptions_were_applied
  (E : Engine) (camera : option MediaStream) (evs : list Event) :
  described None (trace (run E (init camera) evs)) = true.
Proof. now apply run_described. Qed.

(** ** Joining *)

Lemma falsy_nonempty v : v <> "" -> falsy v = false.
Proof. destruct v; [ congruence | reflexivity ]. Qed.

Lemma records_frame {B} (f : State -> B) new s :
  (forall e s0, f (record e s0) = f s0) -> f (records new s) = f s.
Proof.
  intros Hf. revert s. induction new as [| e rest IH]; intros s; [ reflexivity | ].
  cbn. unfold records in IH. now rewrite IH, Hf.
Qed.

Lemma connections_app tr new :
  connections (tr ++ new) = connections tr + connections new.
Proof. unfold connections. now rewrite filter_app, length_app. Qed.

Lemma connections_not_new new :
  forallb not_new new = true -> connections new = 0.
Proof.
  induction new as [| e rest IH]; [ reflexivity | ].
  cbn [forallb]. intros H. apply andb_true_iff in H. destruct H as [He Hrest].
  change (e :: rest) with ([e] ++ rest). rewrite connections_app, (IH Hrest).
  destruct e as [| i c | | | | | |]; try reflexivity.
  destruct c; try reflexivity; discriminate He.
Qed.

Lemma attached_not_new id tracks :
  forallb not_new (map (fun t => Pc id (AddTrack t true)) tracks) = true.
Proof. induction tracks as [| t rest IH]; [ reflexivity | exact IH ]. Qed.

Lemma emitted_attached id tracks :
  emitted (map (fun t => Pc id (AddTrack t true)) tracks) = [].
Proof. induction tracks as [| t rest IH]; [ reflexivity | exact IH ]. Qed.

(** X5. [joinRoom] with a room, a name and a camera stream: it emits
    "join-room" with the two identifiers and nothing else, creates one new
    peer connection and makes it the current one, and (the browser accepting
    them) attaches the camera tracks to it in the order of the stream; the
    loading flag is set and the error message cleared. *)
Theorem joinRoom_with_camera (E : Engine) (s : State) (tracks : MediaStream) :
  roomId s <> "" -> userId s <> "" ->
  localStream s = Some tracks ->
  (forall tr t, rtc_addTrack E tr (connections (trace s)) t = true) ->
  fst (joinRoom E s) = Ok tt
  /\ outbox s (snd (joinRoom E s)) = [join_room (roomId s) (userId s)]
  /\ peerConnectionRef (snd (joinRoom E s)) = Some (connections (trace s))
  /\ connections (trace (snd (joinRoom E s))) = S (connections (trace s))
  /\ senders (connections (trace s)) (trace (snd (joinRoom E s)))
     = senders (connections (trace s)) (trace s) ++ tracks
  /\ loading (snd (joinRoom E s)) = true
  /\ error (snd (joinRoom E s)) = "".
Proof.
  intros Hroom Huser Hcam Hok.
  assert (Hrun : joinRoom E s
    = (Ok tt,
       records (map (fun t => Pc (connections (trace s)) (AddTrack t true)) tracks)
         (setPeerConnectionRef (Some (connections (trace s)))
            (record (Pc (connections (trace s)) New)
               (record (Emit (join_room (roomId s) (userId s)))
                  (setError "" (setLoading true s))))))).
  { unfold joinRoom, initializePeerConnection, perform, modify, bind, gets.
    rewrite (falsy_nonempty _ Hroom), (falsy_nonempty _ Huser).
    cbn -[connections]. rewrite Hcam. cbn -[connections].
    assert (Hfresh : connections (trace s ++ [Emit (join_room (roomId s) (userId s))])
                     = connections (trace s)).
    { rewrite connections_app. cbn. lia. }
    rewrite Hfresh.
    rewrite Hcam.
    match goal with
    | |- context [forEach tracks (attach E) ?st] =>
        rewrite (forEach_attach E (connections (trace s)) tracks st eq_refl Hok)
    end.
    reflexivity. }
  rewrite Hrun. cbn [fst snd].
  split; [ reflexivity | ].
  rewrite (records_frame peerConnectionRef), (records_frame loading),
    (records_frame error) by reflexivity.
  rewrite trace_records. cbn [trace record setPeerConnectionRef setError setLoading].
  repeat split.
  - erewrite outbox_app
      by (rewrite trace_records; cbn; rewrite <- !app_assoc; reflexivity).
    cbn. now rewrite emitted_attached.
  - rewrite !connections_app, (connections_not_new _ (attached_not_new _ tracks)).
    cbn. lia.
  - rewrite !senders_app, senders_attached.
    unfold senders at 2 3, calls_on. cbn. rewrite Nat.eqb_refl. cbn.
    now rewrite !app_nil_r.
Qed.

Lemma joinRoom_with_camera_witness :
  roomId (setUserId "alice" (setRoomId "r1" (init (Some ["cam"; "mic"])))) <> ""
  /\ userId (setUserId "alice" (setRoomId "r1" (init (Some ["cam"; "mic"])))) <> ""
  /\ (forall tr t, rtc_addTrack willing tr 0 t = true)
  /\ outbox (setUserId "alice" (setRoomId "r1" (init (Some ["cam"; "mic"]))))
       (snd (joinRoom willing
               (setUserId "alice" (setRoomId "r1" (init (Some ["cam"; "mic"]))))))
     = [join_room "r1" "alice"].
Proof.
  split; [ discriminate | split; [ discriminate | split; [ reflexivity | ] ] ].
  apply (joinRoom_with_camera willing
           (setUserId "alice" (setRoomId "r1" (init (Some ["cam"; "mic"]))))
           ["cam"; "mic"]);
    try discriminate; reflexivity.
Defined.

(** X6. [joinRoom] with a room and a name but no camera stream still emits
    "join-room"; it creates no peer connection and makes no call on one,
    leaves the connection reference as it was, shows the media error and
    clears the loading flag. *)
Theorem joinRoom_without_camera (E : Engine) (s : State) :
  roomId s <> "" -> userId s <> "" ->
  localStream s = None ->
  fst (joinRoom E s) = Ok tt
  /\ outbox s (snd (joinRoom E s)) = [join_room (roomId s) (userId s)]
  /\ peerConnectionRef (snd (joinRoom E s)) = peerConnectionRef s
  /\ (forall id, calls_on id (trace (snd (joinRoom E s))) = calls_on id (trace s))
  /\ loading (snd (joinRoom E s)) = false
  /\ error (snd (joinRoom E s))
     = "Failed to access media devices. Please ensure permissions are granted.".
Proof.
  intros Hroom Huser Hcam.
  assert (Hrun : joinRoom E s
    = (Ok tt,
       setLoading false
         (setError
            "Failed to access media devices. Please ensure permissions are granted."
            (record (Emit (join_room (roomId s) (userId s)))
               (setError "" (setLoading true s)))))).
  { unfold joinRoom, perform, modify, bind, gets.
    rewrite (falsy_nonempty _ Hroom), (falsy_nonempty _ Huser).
    cbn. rewrite Hcam. reflexivity. }
  rewrite Hrun. cbn [fst snd].
  repeat split.
  - now apply outbox_app with (new := [Emit (join_room (roomId s) (userId s))]).
  - intros id. cbn [trace record setLoading setError].
    rewrite calls_on_app. apply app_nil_r.
Qed.

Lemma joinRoom_without_camera_witness :
  roomId (setUserId "alice" (setRoomId "r1" (init None))) <> ""
  /\ userId (setUserId "alice" (setRoomId "r1" (init None))) <> ""
  /\ localStream (setUserId "alice" (setRoomId "r1" (init None))) = None
  /\ outbox (setUserId "alice" (setRoomId "r1" (init None)))
       (snd (joinRoom refusing (setUserId "alice" (setRoomId "r1" (init None)))))
     = [join_room "r1" "alice"].
Proof.
  split; [ discriminate | split; [ discriminate | split; [ reflexivity | ] ] ].
  apply (joinRoom_without_camera refusing
           (setUserId "alice" (setRoomId "r1" (init None))));
    try discriminate; reflexivity.
Defined.

(** ** The connection reference *)

Lemma handle_preserves_ref E ev :
  is_join ev = false -> preserves peerConnectionRef (handle E ev).
Proof.
  destruct ev; cbn [is_join]; intros H; try discriminate H;
    cbn [handle]; unfold_client; preserves_all.
Qed.

Lemma handle_appends_no_new E ev :
  is_join ev = false -> appends not_new (handle E ev).
Proof.
  destruct ev; cbn [is_join]; intros H; try discriminate H;
    cbn [handle]; unfold_client; appends_all.
Qed.

Lemma attach_loop_no_new E tracks : appends not_new (forEach tracks (attach E)).
Proof. unfold_client; appends_all. Qed.

Lemma connections_grown tr new :
  forallb not_new new = true -> connections (tr ++ new) = connections tr.
Proof. intros H. rewrite connections_app, (connections_not_new new H). lia. Qed.

(** Right after [initializePeerConnection] the reference holds the
    connection just created, whether or not the tracks could be attached. *)
Lemma initializePeerConnection_newest E s :
  ref_is_newest (snd (initializePeerConnection E s)).
Proof.
  assert (H1 : ref_is_newest
                 (setPeerConnectionRef (Some (connections (trace s)))
                    (record (Pc (connections (trace s)) New) s))).
  { unfold ref_is_newest. cbn -[connections].
    rewrite connections_app. cbn. now rewrite Nat.add_1_r. }
  unfold initializePeerConnection, perform, modify, bind, gets.
  cbn -[connections forEach].
  destruct (localStream s) as [tracks |]; [ | exact H1 ].
  match goal with
  | |- ref_is_newest (snd (forEach tracks (attach E) ?st)) =>
      unfold ref_is_newest;
      rewrite (attach_loop_preserves peerConnectionRef E tracks
                 (fun _ _ => eq_refl) st);
      destruct (attach_loop_no_new E tracks st) as [new [Etr Hnew]];
      rewrite Etr, (connections_grown _ new Hnew)
  end.
  exact H1.
Qed.

Lemma joinRoom_newest E s :
  ref_is_newest s -> ref_is_newest (snd (joinRoom E s)).
Proof.
  intros H. unfold joinRoom, bind, gets.
  destruct (falsy (roomId s) || falsy (userId s)).
  - unfold ref_is_newest in *. cbn -[connections].
    rewrite connections_grown by reflexivity. exact H.
  - unfold perform, modify. cbn -[connections initializePeerConnection].
    destruct (localStream s).
    + apply initializePeerConnection_newest.
    + unfold ref_is_newest in *. cbn -[connections].
      rewrite connections_grown by reflexivity. exact H.
Qed.

Lemma step_newest E s ev : ref_is_newest s -> ref_is_newest (step E s ev).
Proof.
  intros H.
  assert (Hh : ref_is_newest (snd (handle E ev s))).
  { destruct (is_join ev) eqn:Hev.
    - destruct ev; try discriminate Hev. cbn [handle]. now apply joinRoom_newest.
    - unfold ref_is_newest.
      rewrite (handle_preserves_ref E ev Hev s).
      destruct (handle_appends_no_new E ev Hev s) as [new [Etr Hnew]].
      rewrite Etr, (connections_grown _ new Hnew). exact H. }
  exact Hh.
Qed.

(** X7. At every point of every run from the initial state the
    connection reference is null exactly while no peer connection has been
    created, and otherwise holds the connection created last: joining again
    replaces the reference by a fresh connection, and nothing else (not
    even [disconnect]) ever resets or changes it. *)
Theorem connection_reference_is_newest
  (E : Engine) (camera : option MediaStream) (evs : list Event) :
  ref_is_newest (run E (init camera) evs).
Proof.
  assert (H : forall s, ref_is_newest s -> ref_is_newest (run E s evs)).
  { induction evs as [| ev rest IH]; intros s Hs; [ exact Hs | ].
    rewrite run_cons. now apply IH, step_newest. }
  apply H. reflexivity.
Qed.

(** ** Before joining *)

Lemma calls_on_not_pc id new :
  forallb not_pc new = true -> calls_on id new = [].
Proof.
  induction new as [| e rest IH]; [ reflexivity | ].
  cbn [forallb]. intros H. apply andb_true_iff in H. destruct H as [He Hrest].
  change (e :: rest) with ([e] ++ rest). rewrite calls_on_app, (IH Hrest).
  destruct e; try reflexivity; discriminate He.
Qed.

Lemma handle_local_no_pc E ev :
  is_local ev = true -> appends not_pc (handle E ev).
Proof.
  destruct ev; cbn [is_local]; intros H; try discriminate H;
    cbn [handle]; unfold_client; appends_all.
Qed.

Lemma handle_without_connection E s ev :
  peerConnectionRef s = None -> is_join ev = false ->
  exists new,
    trace (snd (handle E ev s)) = trace s ++ new /\ forallb not_pc new = true.
Proof.
  intros Hpc Hev.
  destruct (is_local ev) eqn:Hlocal; [ now apply handle_local_no_pc | ].
  destruct ev; try discriminate Hev; try discriminate Hlocal; cbn [handle].
  - (* start screen share *)
    unfold startScreenShare, try_catch, await_getDisplayMedia, perform, modify,
      throw, ret, bind, gets.
    destruct (media_getDisplayMedia E (trace s)); cbn; rewrite ?Hpc; cbn.
    + eexists. split; reflexivity.
    + eexists. split; [ rewrite <- app_assoc; reflexivity | reflexivity ].
  - (* disconnect *)
    unfold disconnect, emit_reserved, perform, modify, throw, bind, gets.
    rewrite Hpc. destruct (reserved_emit_returns E); cbn;
      eexists; split; reflexivity.
  - (* user-connected *)
    destruct (on_user_connected_trace E uid s)
      as [_ [Hlog | [id [new [Hsome _]]]]]; [ | congruence ].
    rewrite Hlog. eexists. split; reflexivity.
  - (* offer *)
    unfold handleOffer, bind, gets. rewrite Hpc. cbn.
    exists []. split; [ now rewrite app_nil_r | reflexivity ].
  - (* answer *)
    unfold on_answer, bind, gets. rewrite Hpc. cbn.
    exists []. split; [ now rewrite app_nil_r | reflexivity ].
  - (* candidate *)
    unfold on_ice_candidate, bind, gets. rewrite Hpc. cbn.
    exists []. split; [ now rewrite app_nil_r | reflexivity ].
Qed.

(** X8. While the user has not joined, the client makes no call on any
    peer connection: from a state with a null connection reference, over
    any events other than the join button (inbound offers, answers,
    candidates and "user-connected" included, and a screen share), the
    reference stays null and the calls on every connection are those there
    were. *)
Theorem no_call_without_join (E : Engine) (s : State) (evs : list Event) :
  peerConnectionRef s = None ->
  forallb (fun ev => negb (is_join ev)) evs = true ->
  peerConnectionRef (run E s evs) = None
  /\ (forall id, calls_on id (trace (run E s evs)) = calls_on id (trace s)).
Proof.
  revert s. induction evs as [| ev rest IH]; intros s Hpc H; [ now split | ].
  cbn [forallb] in H. apply andb_true_iff in H. destruct H as [Hev Hrest].
  apply negb_true_iff in Hev. rewrite run_cons.
  assert (Hpc' : peerConnectionRef (step E s ev) = None).
  { unfold step. cbn [render peerConnectionRef setScreenVideoRef setRemoteVideoRef].
    now rewrite (handle_preserves_ref E ev Hev s). }
  destruct (IH (step E s ev) Hpc' Hrest) as [Hfinal Hcalls].
  split; [ exact Hfinal | ].
  intros id. rewrite Hcalls. unfold step. rewrite trace_render.
  destruct (handle_without_connection E s ev Hpc Hev) as [new [Etr Hnew]].
  rewrite Etr, calls_on_app, (calls_on_not_pc id new Hnew). apply app_nil_r.
Qed.

Lemma no_call_without_join_witness :
  peerConnectionRef (init (Some ["cam"; "mic"])) = None
  /\ forallb (fun ev => negb (is_join ev))
       [UserConnected "bob"; OfferIn (mkDesc SdpOffer "x"); IceCandidateIn "c1";
        AnswerIn (mkDesc SdpAnswer "y"); ClickStartScreenShare; ClickDisconnect]
     = true
  /\ peerConnectionRef
       (run browser (init (Some ["cam"; "mic"]))
          [UserConnected "bob"; OfferIn (mkDesc SdpOffer "x"); IceCandidateIn "c1";
           AnswerIn (mkDesc SdpAnswer "y"); ClickStartScreenShare; ClickDisconnect])
     = None.
Proof.
  split; [ reflexivity | split; [ reflexivity | ] ].
  apply (no_call_without_join browser (init (Some ["cam"; "mic"]))); reflexivity.
Defined.

(** ** The chat transcript *)

Lemma emitted_emits msgs : emitted (map Emit msgs) = msgs.
Proof.
  induction msgs as [| m rest IH]; [ reflexivity | ].
  cbn [map]. change (Emit m :: map Emit rest) with ([Emit m] ++ map Emit rest).
  now rewrite emitted_app, IH.
Qed.

Lemma worded_cons uid text texts :
  worded uid (text :: texts) = worded uid [text] ++ worded uid texts.
Proof. unfold worded. cbn. destruct (falsy text); reflexivity. Qed.

Lemma say_one E s text :
  messages (run E s [TypeMessage text; ClickSend])
  = messages s ++ worded (userId s) [text]
  /\ trace (run E s [TypeMessage text; ClickSend])
     = trace s ++ map Emit (map send_message (worded (userId s) [text]))
  /\ userId (run E s [TypeMessage text; ClickSend]) = userId s.
Proof.
  destruct text as [| a rest].
  - cbn. now rewrite !app_nil_r.
  - repeat split.
Qed.

Lemma say_all E texts : forall s,
  messages (run E s (say texts)) = messages s ++ worded (userId s) texts
  /\ trace (run E s (say texts))
     = trace s ++ map Emit (map send_message (worded (userId s) texts))
  /\ userId (run E s (say texts)) = userId s.
Proof.
  induction texts as [| text rest IH]; intros s.
  - cbn. now rewrite !app_nil_r.
  - change (say (text :: rest)) with ([TypeMessage text; ClickSend] ++ say rest).
    rewrite run_app.
    destruct (say_one E s text) as [Hm [Ht Hu]].
    destruct (IH (run E s [TypeMessage text; ClickSend])) as [IHm [IHt IHu]].
    rewrite (worded_cons (userId s) text rest).
    rewrite IHm, IHt, IHu, Hm, Ht, Hu, !map_app, <- !app_assoc.
    repeat split.
Qed.

(** X9. Texts typed and sent one after the other (screen-share revision):
    the empty ones are skipped; each of the others is put on the channel
    once, worded "name: text", in the order sent, and the same wordings are
    appended, in the same order, to the sender's own message list.  What
    the sender sees is what was sent. *)
Theorem chat_transcript (E : Engine) (s : State) (texts : list string) :
  messages (run E s (say texts)) = messages s ++ worded (userId s) texts
  /\ outbox s (run E s (say texts))
     = map send_message (worded (userId s) texts).
Proof.
  destruct (say_all E texts s) as [Hm [Ht _]].
  split; [ exact Hm | ].
  rewrite (outbox_app s _ _ Ht). apply emitted_emits.
Qed.

Lemma step_grows_messages E s ev :
  exists added, messages (step E s ev) = messages s ++ added.
Proof.
  destruct (is_chat ev) eqn:Hev.
  - destruct ev; try discriminate Hev.
    + (* the send button *)
      unfold step. cbn [handle]. unfold bind, gets.
      destruct (message s) as [| a rest].
      * exists []. cbn. now rewrite app_nil_r.
      * eexists. reflexivity.
    + (* an inbound message *)
      exists [msg]. reflexivity.
  - exists []. rewrite app_nil_r. unfold step.
    apply (handle_preserves_messages E ev Hev s).
Qed.

(** X10. The message list only grows: over any run, against any browser,
    the list afterwards is the list before followed by what was added.  No
    event removes, replaces or reorders a message already shown. *)
Theorem messages_only_grow (E : Engine) (s : State) (evs : list Event) :
  exists added, messages (run E s evs) = messages s ++ added.
Proof.
  revert s. induction evs as [| ev rest IH]; intros s.
  - exists []. cbn. now rewrite app_nil_r.
  - rewrite run_cons.
    destruct (IH (step E s ev)) as [later Hlater].
    destruct (step_grows_messages E s ev) as [now_added Hnow].
    exists (now_added ++ later). now rewrite Hlater, Hnow, app_assoc.
Qed.

(** ** Candidates found locally *)

Lemma step_candidate_found E s id c :
  peerConnectionRef s = Some id ->
  peerConnectionRef (step E s (IceCandidateFound c)) = Some id
  /\ trace (step E s (IceCandidateFound c))
     = trace s ++ map Emit (map ice_candidate_msg (gathered [c])).
Proof.
  intros Hpc. unfold step. cbn [handle].
  unfold when_connection, onicecandidate, perform, modify, bind, gets.
  rewrite Hpc. destruct c as [x |]; cbn; rewrite ?app_nil_r; now split.
Qed.

Lemma run_candidates_found E id cs : forall s,
  peerConnectionRef s = Some id ->
  trace (run E s (map IceCandidateFound cs))
  = trace s ++ map Emit (map ice_candidate_msg (gathered cs)).
Proof.
  induction cs as [| c rest IH]; intros s Hpc.
  - cbn. now rewrite app_nil_r.
  - cbn [map]. rewrite run_cons.
    destruct (step_candidate_found E s id c Hpc) as [Hpc' Htr].
    rewrite (IH _ Hpc'), Htr.
    replace (gathered (c :: rest)) with (gathered [c] ++ gathered rest)
      by (destruct c; reflexivity).
    now rewrite !map_app, app_assoc.
Qed.

Lemma calls_on_emits id msgs : calls_on id (map Emit msgs) = [].
Proof. induction msgs as [| m rest IH]; [ reflexivity | exact IH ]. Qed.

(** X11. The candidates the browser finds for a connection are forwarded
    on the signaling channel one "ice-candidate" each, in the order found;
    the null candidate that ends the gathering is not forwarded; and
    forwarding makes no call on any connection. *)
Theorem local_candidates_are_forwarded
  (E : Engine) (s : State) (id : nat) (cs : list (option RTCIceCandidateInit)) :
  peerConnectionRef s = Some id ->
  outbox s (run E s (map IceCandidateFound cs))
  = map ice_candidate_msg (gathered cs)
  /\ (forall j, calls_on j (trace (run E s (map IceCandidateFound cs)))
                = calls_on j (trace s)).
Proof.
  intros Hpc. pose proof (run_candidates_found E id cs s Hpc) as Htr.
  split.
  - rewrite (outbox_app s _ _ Htr). apply emitted_emits.
  - intros j. rewrite Htr, calls_on_app, calls_on_emits. apply app_nil_r.
Qed.

Lemma local_candidates_are_forwarded_witness :
  peerConnectionRef joined = Some 0
  /\ outbox joined
       (run browser joined
          (map IceCandidateFound [Some "c1"; Some "c2"; None]))
     = [ice_candidate_msg "c1"; ice_candidate_msg "c2"].
Proof.
  split; [ reflexivity | ].
  apply (local_candidates_are_forwarded browser joined 0
           [Some "c1"; Some "c2"; None]).
  reflexivity.
Defined.

(** ** Screen sharing, further *)

Lemma forEach_stop stream : forall s,
  forEach stream (fun t => perform (TrackStop t)) s
  = (Ok tt, records (map TrackStop stream) s).
Proof.
  induction stream as [| t rest IH]; intros s; [ reflexivity | ].
  cbn [forEach map].
  rewrite (bind_ok _ _ s tt (record (TrackStop t) s) eq_refl).
  now rewrite IH.
Qed.

Lemma stopped_stops stream : stopped (map TrackStop stream) = stream.
Proof.
  induction stream as [| t rest IH]; [ reflexivity | ].
  cbn [map]. change (TrackStop t :: map TrackStop rest)
    with ([TrackStop t] ++ map TrackStop rest).
  now rewrite stopped_app, IH.
Qed.

Lemma stops_not_pc stream : forallb not_pc (map TrackStop stream) = true.
Proof. induction stream as [| t rest IH]; [ reflexivity | exact IH ]. Qed.

Lemma stops_silent stream : forallb silent (map TrackStop stream) = true.
Proof. induction stream as [| t rest IH]; [ reflexivity | exact IH ]. Qed.

(** X12. [stopScreenShare] with the screen-share video mounted stops the
    tracks of the stream on show, in order, empties the video and leaves
    the screen-share view.  It sends nothing and makes no call on the peer
    connection: the tracks stay attached to it and no negotiation follows.
    With the video not mounted it throws and changes nothing. *)
Theorem stopScreenShare_stops_the_stream_on_show (s : State) :
  (forall src, screenVideoRef s = Some src ->
     fst (stopScreenShare s) = Ok tt
     /\ stopped (trace (snd (stopScreenShare s)))
        = stopped (trace s) ++ match src with
                               | Some stream => stream
                               | None => []
                               end
     /\ emitted (trace (snd (stopScreenShare s))) = emitted (trace s)
     /\ (forall id, calls_on id (trace (snd (stopScreenShare s)))
                    = calls_on id (trace s))
     /\ screenVideoRef (snd (stopScreenShare s)) = Some None
     /\ isScreenSharing (snd (stopScreenShare s)) = false)
  /\ (screenVideoRef s = None ->
      stopScreenShare s
      = (Raise (TypeError "screenVideoRef.current is null"), s)).
Proof.
  split.
  - intros src Href.
    assert (Hrun : stopScreenShare s
      = (Ok tt,
         setIsScreenSharing false
           (setScreenVideoRef (Some None)
              (records (map TrackStop match src with
                                      | Some stream => stream
                                      | None => []
                                      end) s)))).
    { unfold stopScreenShare. unfold bind at 1. unfold gets at 1.
      rewrite Href.
      rewrite (bind_ok _ _ s tt _
                 (forEach_stop match src with
                               | Some stream => stream
                               | None => []
                               end s)).
      reflexivity. }
    rewrite Hrun. cbn [fst snd trace setIsScreenSharing setScreenVideoRef
                         screenVideoRef isScreenSharing].
    rewrite trace_records.
    repeat split.
    + now rewrite stopped_app, stopped_stops.
    + rewrite emitted_app, (emitted_silent _ (stops_silent _)). apply app_nil_r.
    + intros id.
      rewrite calls_on_app, (calls_on_not_pc id _ (stops_not_pc _)).
      apply app_nil_r.
  - intros Href. unfold stopScreenShare, bind, gets, throw. rewrite Href.
    reflexivity.
Qed.

Lemma stopScreenShare_stops_the_stream_on_show_witness :
  screenVideoRef
    (setScreenVideoRef (Some (Some ["screen"])) (setIsScreenSharing true connected))
  = Some (Some ["screen"])
  /\ stopped (trace (snd (stopScreenShare
       (setScreenVideoRef (Some (Some ["screen"]))
          (setIsScreenSharing true connected)))))
     = ["screen"]
  /\ senders 0 (trace (snd (stopScreenShare
       (setScreenVideoRef (Some (Some ["screen"]))
          (setIsScreenSharing true connected)))))
     = ["cam"; "mic"].
Proof.
  split; [ reflexivity | ].
  destruct (stopScreenShare_stops_the_stream_on_show
              (setScreenVideoRef (Some (Some ["screen"]))
                 (setIsScreenSharing true connected))) as [Hstop _].
  destruct (Hstop (Some ["screen"]) eq_refl) as [_ [Hstopped [_ [Hcalls _]]]].
  split; [ exact Hstopped | ].
  unfold senders. now rewrite Hcalls.
Defined.

Lemma try_catch_returns (body : M unit) (handler : Exn -> M unit) s :
  (forall e s', fst (handler e s') = Ok tt) ->
  fst (try_catch body handler s) = Ok tt.
Proof.
  intros H. unfold try_catch. destruct (body s) as [[[] | e] s']; [ reflexivity | apply H ].
Qed.

(** X13. [startScreenShare] never throws: whatever fails inside, its
    [catch] takes it.  While the screen-share video is not mounted the
    attempt ends in that [catch] whenever the display stream is refused or a
    peer connection exists: the error message is set and the view does not
    change.  With
    the stream granted and no peer connection, the stream is neither shown,
    attached nor stopped: the only trace of the attempt is the grant. *)
Theorem startScreenShare_reports_failure (E : Engine) (s : State) :
  fst (startScreenShare E s) = Ok tt
  /\ (screenVideoRef s = None ->
      media_getDisplayMedia E (trace s) = None \/ peerConnectionRef s <> None ->
      error (snd (startScreenShare E s))
      = "Failed to share the screen. Please try again."
      /\ isScreenSharing (snd (startScreenShare E s)) = isScreenSharing s)
  /\ (forall stream,
        media_getDisplayMedia E (trace s) = Some stream ->
        peerConnectionRef s = None ->
        snd (startScreenShare E s) = record (GetDisplayMedia (Some stream)) s).
Proof.
  split; [ | split ].
  - unfold startScreenShare. apply try_catch_returns. reflexivity.
  - intros Href Hfail.
    split; [ | now apply startScreenShare_unmounted ].
    unfold startScreenShare, try_catch, await_getDisplayMedia, bind, gets,
      perform, modify, throw, ret.
    destruct (media_getDisplayMedia E (trace s)) as [stream |]; cbn;
      [ | reflexivity ].
    destruct (peerConnectionRef s) as [id |];
      [ | destruct Hfail as [Hno | Hno]; [ discriminate Hno | congruence ] ].
    pose proof (attach_loop_preserves screenVideoRef E stream
                  (fun _ _ => eq_refl) (record (GetDisplayMedia (Some stream)) s))
      as Hscreen.
    destruct (forEach stream (attach E) (record (GetDisplayMedia (Some stream)) s))
      as [[[] | e] s2]; cbn in Hscreen |- *.
    + rewrite Hscreen, Href. reflexivity.
    + reflexivity.
  - intros stream Hmedia Hpc.
    unfold startScreenShare, try_catch, await_getDisplayMedia, bind, gets,
      perform, modify, throw, ret.
    rewrite Hmedia. cbn. rewrite Hpc. reflexivity.
Qed.

Lemma startScreenShare_reports_failure_witness :
  screenVideoRef connected = None
  /\ peerConnectionRef connected <> None
  /\ error (snd (startScreenShare browser connected))
     = "Failed to share the screen. Please try again.".
Proof.
  split; [ reflexivity | split; [ discriminate | ] ].
  destruct (startScreenShare_reports_failure browser connected) as [_ [H _]].
  apply H; [ reflexivity | right; discriminate ].
Defined.

(** ** The loading flag and the remote video *)

Lemma handle_preserves_localStream E ev : preserves localStream (handle E ev).
Proof. destruct ev; cbn [handle]; unfold_client; preserves_all. Qed.

Lemma handle_preserves_loading E ev :
  is_join ev = false -> is_track_received ev = false ->
  preserves loading (handle E ev).
Proof.
  destruct ev; cbn [is_join is_track_received]; intros H1 H2;
    try discriminate H1; try discriminate H2;
    cbn [handle]; unfold_client; preserves_all.
Qed.

Lemma initializePeerConnection_preserves_loading E :
  preserves loading (initializePeerConnection E).
Proof. unfold_client; preserves_all. Qed.

Lemma joinRoom_keeps_loading E s tracks :
  localStream s = Some tracks -> loading s = true ->
  loading (snd (joinRoom E s)) = true.
Proof.
  intros Hcam Hload. unfold joinRoom, bind, gets.
  destruct (falsy (roomId s) || falsy (userId s)); [ exact Hload | ].
  unfold perform, modify. cbn -[initializePeerConnection]. rewrite Hcam.
  now rewrite initializePeerConnection_preserves_loading.
Qed.

Lemma step_keeps_loading E s ev tracks :
  localStream s = Some tracks -> loading s = true ->
  is_track_received ev = false ->
  localStream (step E s ev) = Some tracks /\ loading (step E s ev) = true.
Proof.
  intros Hcam Hload Hev. unfold step. split.
  - cbn [render localStream setScreenVideoRef setRemoteVideoRef].
    now rewrite (handle_preserves_localStream E ev s).
  - cbn [render loading setScreenVideoRef setRemoteVideoRef].
    destruct (is_join ev) eqn:Hjoin.
    + destruct ev; try discriminate Hjoin. cbn [handle].
      now apply joinRoom_keeps_loading with (tracks := tracks).
    + now rewrite (handle_preserves_loading E ev Hjoin Hev s).
Qed.

(** X14. With a camera stream, once the loading flag is set (by a join)
    it stays set for as long as no remote track arrives: no other event
    clears it, neither an answer, nor a failed negotiation, nor a
    disconnect, nor joining again. *)
Theorem loading_lasts_until_remote_track
  (E : Engine) (s : State) (tracks : MediaStream) (evs : list Event) :
  localStream s = Some tracks ->
  loading s = true ->
  forallb (fun ev => negb (is_track_received ev)) evs = true ->
  loading (run E s evs) = true.
Proof.
  revert s. induction evs as [| ev rest IH]; intros s Hcam Hload H;
    [ exact Hload | ].
  cbn [forallb] in H. apply andb_true_iff in H. destruct H as [Hev Hrest].
  apply negb_true_iff in Hev. rewrite run_cons.
  destruct (step_keeps_loading E s ev tracks Hcam Hload Hev) as [Hcam' Hload'].
  now apply IH.
Qed.

Lemma loading_lasts_until_remote_track_witness :
  localStream joined = Some ["cam"; "mic"]
  /\ loading joined = true
  /\ loading (run browser joined
                [UserConnected "bob"; AnswerIn (mkDesc SdpAnswer "cam,mic");
                 IceCandidateIn "c1"; ClickDisconnect; ClickJoin])
     = true.
Proof.
  split; [ reflexivity | split; [ reflexivity | ] ].
  apply (loading_lasts_until_remote_track browser joined ["cam"; "mic"]);
    reflexivity.
Defined.

Lemma run_keeps_remote_video E evs : forall s,
  isScreenSharing s = false -> screenVideoRef s = None ->
  remoteVideoRef s <> None ->
  isScreenSharing (run E s evs) = false
  /\ remoteVideoRef (run E s evs) <> None.
Proof.
  induction evs as [| ev rest IH]; intros s Hshare Href Hremote; [ now split | ].
  rewrite run_cons.
  destruct (step_keeps_view_hidden E s ev Hshare Href) as [Hshare' Href'].
  apply IH; [ exact Hshare' | exact Href' | ].
  unfold step, render in Hshare' |- *.
  cbn [isScreenSharing remoteVideoRef setScreenVideoRef setRemoteVideoRef]
    in Hshare' |- *.
  rewrite Hshare'. cbn. now destruct (remoteVideoRef (snd (handle E ev s))).
Qed.

(** X15. At every point of a run from the initial state at which a peer
    connection exists, a remote track that arrives is shown: the remote
    video gets the first stream of the event, the loading flag is cleared,
    and nothing is sent or called. *)
Theorem remote_track_is_shown
  (E : Engine) (camera : option MediaStream) (evs : list Event)
  (streams : list MediaStream) :
  peerConnectionRef (run E (init camera) evs) <> None ->
  remoteVideoRef (step E (run E (init camera) evs) (TrackReceived streams))
  = Some (hd_error streams)
  /\ loading (step E (run E (init camera) evs) (TrackReceived streams)) = false
  /\ trace (step E (run E (init camera) evs) (TrackReceived streams))
     = trace (run E (init camera) evs).
Proof.
  intros Hpc.
  destruct (run_keeps_remote_video E evs (init camera) eq_refl eq_refl)
    as [Hshare Hremote]; [ discriminate | ].
  unfold step. cbn [handle].
  unfold when_connection, ontrack, modify, bind, gets.
  destruct (peerConnectionRef (run E (init camera) evs)); [ | congruence ].
  destruct (remoteVideoRef (run E (init camera) evs)); [ | congruence ].
  cbn. rewrite Hshare. repeat split.
Qed.

Lemma remote_track_is_shown_witness :
  peerConnectionRef
    (run browser (init (Some ["cam"; "mic"]))
       [TypeRoomId "r1"; TypeUserId "alice"; ClickJoin]) <> None
  /\ loading
       (step browser
          (run browser (init (Some ["cam"; "mic"]))
             [TypeRoomId "r1"; TypeUserId "alice"; ClickJoin])
          (TrackReceived [["remote-cam"; "remote-mic"]])) = false.
Proof.
  split; [ discriminate | ].
  apply (remote_track_is_shown browser (Some ["cam"; "mic"])
           [TypeRoomId "r1"; TypeUserId "alice"; ClickJoin]
           [["remote-cam"; "remote-mic"]]).
  discriminate.
Defined.
